(** * graphql-upload: the upload-storage path and its partial-failure handling

    A shallow embedding of [src/graphql/lib/storeUpload.ts] and of the two
    versions of the resolvers ([multipleUpload] over [Promise.allSettled],
    [multipleUpload] over [Promise.all] with a try/catch per upload, and
    [Query.uploads]).

    What Node.js and the libraries do is made explicit:
    - the upload directory is a finite map from entry path to contents,
      together with the chronological list of file-system calls issued;
    - what the environment decides during one call of [storeUpload] (the
      identifier returned by [shortId.generate()], whether creating the
      streams throws, whether opening or writing the target fails and how
      much was written by then, whether [unlink] fails) is a [Fate] handed
      to the call;
    - the asynchronous tasks of one [multipleUpload] are a pool of small
      state machines, advanced one event at a time by a schedule (the list
      of task indices in the order the event loop serves them). *)

From stdpp Require Import gmap strings list fin_maps.

Open Scope string_scope.
Open Scope list_scope.

(** ** Data model *)

(** A rejection reason or stream error, as [`${error}`] renders it. *)
Definition Error := string.

(** What [createReadStream()] will deliver: the chunks in order, then either
    the end of the stream or an ['error'] event. *)
Record ReadStream := mkReadStream {
  chunks : list string;
  failure : option Error
}.

(** [FileUpload] of graphql-upload/processRequest.mjs. *)
Module FileUpload.
Record t := mk {
  filename : string;
  mimetype : string;
  encoding : string;
  createReadStream : ReadStream
}.
End FileUpload.

(** [interface FileArgs] of storeUpload.ts. *)
Module FileArgs.
Record t := mk {
  filename : string;
  mimetype : string;
  encoding : string
}.
End FileArgs.

(** The element of [files]: the resolvers read either its [file] field
    (storeUpload.ts, [upload.file]) or its [promise] field (second version of
    the resolvers, [await promise]). *)
Record Upload := mkUpload {
  file : FileUpload.t;
  promise : Error + FileUpload.t
}.

(** ** The storage location *)

(** What happens to the directory, in order. [SysWrite path bytes] says that
    these bytes reached the entry; how the write stream groups the chunks it
    buffers into write calls is left out. *)
Inductive Syscall :=
| SysOpen (path : string)
| SysWrite (path : string) (chunk : string)
| SysUnlink (path : string)
| SysReaddir.

Record Storage := mkStorage {
  entries : gmap string string;
  unreadable : option Error;
  calls : list Syscall
}.

Definition issue (c : Syscall) (s : Storage) : Storage :=
  {| entries := entries s; unreadable := unreadable s; calls := calls s ++ [c] |}.

Definition with_entries (m : gmap string string) (s : Storage) : Storage :=
  {| entries := m; unreadable := unreadable s; calls := calls s |}.

(** What the file system does to one write stream: nothing wrong, the open
    fails, or the write of chunk number [k] fails after [short] of its bytes
    were written. *)
Inductive DiskFault :=
| NoFault
| OpenFails (e : Error)
| WriteFails (k : nat) (short : nat) (e : Error).

(** What the environment decides during one call of [storeUpload]:
    - the value of [shortId.generate()];
    - [throws name]: [createReadStream()], [new URL(name, ...)] or
      [createWriteStream] on that URL throws, before any ['error'] handler is
      installed (a stream already released, a stored name that is no file
      URL);
    - [flushed]: how many chunks the write stream has written when an
      ['error'] of the upload stream arrives; those still buffered are
      dropped by [destroy];
    - [disk name]: what the file system does to the write stream on the
      path of that stored name (a path into a missing subdirectory cannot be
      opened);
    - whether [unlink] fails.
    The answers belong to one call; they may differ from call to call. *)
Record Fate := mkFate {
  shortId_generate : string;
  throws : string → option Error;
  flushed : nat;
  disk : string → DiskFault;
  unlink_fails : bool
}.

Definition open_fault (d : DiskFault) : option Error :=
  match d with OpenFails e => Some e | _ => None end.

(** The write of chunk number [k] (from 0) fails. *)
Definition write_fault (d : DiskFault) (k : nat) : option Error :=
  match d with
  | WriteFails k' _ e => if decide (k' = k) then Some e else None
  | _ => None
  end.

Definition short_write (d : DiskFault) : nat :=
  match d with WriteFails _ short _ => short | _ => 0 end.

(** The first [n] bytes of a chunk. *)
Fixpoint byte_prefix (n : nat) (c : string) : string :=
  match n, c with
  | S n', String a c' => String a (byte_prefix n' c')
  | _, _ => ""
  end.

(** [createWriteStream(url)] opening its target with flag 'w': the entry is
    created, or truncated when it exists. *)
Definition sys_open (url : string) (s : Storage) : Storage :=
  issue (SysOpen url) (with_entries (<[url := ""]> (entries s)) s).

(** Bytes written by the write stream: the entry grows by them. *)
Definition sys_write (url : string) (c : string) (s : Storage) : Storage :=
  issue (SysWrite url c)
    (with_entries (<[url := default "" (entries s !! url) +:+ c]> (entries s)) s).

(** [unlink(url, callback)]: the callback of storeUpload.ts takes no
    argument, so whether the removal worked is not looked at. *)
Definition sys_unlink (fails : bool) (url : string) (s : Storage) : Storage :=
  issue (SysUnlink url)
    (if fails then s else with_entries (delete url (entries s)) s).

(** [readdir(UPLOAD_DIRECTORY_URL)] *)
Definition readdir (s : Storage) : (Error + list string) * Storage :=
  match unreadable s with
  | Some e => (inl e, issue SysReaddir s)
  | None => (inr (map_to_list (entries s)).*1, issue SysReaddir s)
  end.

Section Repo.

(** [new URL(name, UPLOAD_DIRECTORY_URL)]: the entry of the upload directory
    that the URL designates. The configuration module and the URL resolution
    are outside the sources at hand. *)
Variable new_URL : string → string.

(** ** storeUpload.ts *)

(** The chunks of the upload that get to the write stream's target: all of
    them when the stream ends, the first [flushed] when it errors. *)
Definition delivered (φ : Fate) (stream : ReadStream) : list string :=
  match failure stream with
  | Some _ => take (flushed φ) (chunks stream)
  | None => chunks stream
  end.

Definition storedFileName_of (φ : Fate) (f : FileUpload.t) : string :=
  shortId_generate φ +:+ "-" +:+ FileUpload.filename f.

(** What the file system does to the write stream of the call made for [f]. *)
Definition faults (φ : Fate) (f : FileUpload.t) : DiskFault :=
  disk φ (storedFileName_of φ f).

(** [stream.pipe(writeStream)] over the chunks still to come, [k] chunks
    written so far: the error of the first failing write, if any. A write
    that fails may have written the first bytes of its chunk. *)
Fixpoint pipe (d : DiskFault) (url : string) (k : nat) (cs : list string)
    (s : Storage) : option Error * Storage :=
  match cs with
  | [] => (None, s)
  | c :: rest =>
      match write_fault d k with
      | Some e => (Some e, sys_write url (byte_prefix (short_write d) c) s)
      | None => pipe d url (S k) rest (sys_write url c s)
      end
  end.

Definition stored_args (φ : Fate) (f : FileUpload.t) : FileArgs.t :=
  {| FileArgs.filename := storedFileName_of φ f;
     FileArgs.mimetype := FileUpload.mimetype f;
     FileArgs.encoding := FileUpload.encoding f |}.

(** [storeUpload(upload)] run from its call to the settling of the promise
    it returns: [inr] the resolved value, [inl] the rejection reason. The
    argument [f] is [upload.file], the only field of [upload] that is read. *)
Definition storeUpload (φ : Fate) (f : FileUpload.t) (s : Storage)
    : (Error + FileArgs.t) * Storage :=
  let stream := FileUpload.createReadStream f in
  let storedFileName := storedFileName_of φ f in
  let storedFileUrl := new_URL storedFileName in
  match throws φ storedFileName with
  | Some error => (inl error, s)
  | None =>
      match open_fault (faults φ f) with
      | Some error =>
          (inl error,
           sys_unlink (unlink_fails φ) storedFileUrl (issue (SysOpen storedFileUrl) s))
      | None =>
          match pipe (faults φ f) storedFileUrl 0 (delivered φ stream)
                  (sys_open storedFileUrl s) with
          | (Some error, s') =>
              (inl error, sys_unlink (unlink_fails φ) storedFileUrl s')
          | (None, s') =>
              match failure stream with
              | Some error =>
                  (inl error, sys_unlink (unlink_fails φ) storedFileUrl s')
              | None => (inr (stored_args φ f), s')
              end
          end
      end
  end.

(** *** The same call, one event at a time

    Between two events of one call the event loop may serve other calls.
    [Opening]: the synchronous part has run; a throw in it, or else the
    outcome of the pending open, comes with the first event;
    [Piping rest k]: [k] chunks written, [rest] still to come;
    [Unlinking error]: the ['error'] handler called [unlink], whose callback
    is pending; [Settled r]: the promise is resolved or rejected. *)
Inductive Phase :=
| Opening
| Piping (rest : list string) (k : nat)
| Unlinking (error : Error)
| Settled (r : Error + FileArgs.t).

Record Task := mkTask {
  t_file : FileUpload.t;
  t_fate : Fate;
  t_phase : Phase
}.

Definition t_url (t : Task) : string :=
  new_URL (storedFileName_of (t_fate t) (t_file t)).

Definition to_phase (p : Phase) (t : Task) : Task :=
  {| t_file := t_file t; t_fate := t_fate t; t_phase := p |}.

(** The synchronous part of [storeUpload]: up to [stream.pipe(writeStream)]. *)
Definition launch (φ : Fate) (f : FileUpload.t) : Task :=
  {| t_file := f; t_fate := φ; t_phase := Opening |}.

Definition step (t : Task) (s : Storage) : Task * Storage :=
  let stream := FileUpload.createReadStream (t_file t) in
  match t_phase t with
  | Opening =>
      match throws (t_fate t) (storedFileName_of (t_fate t) (t_file t)) with
      | Some error => (to_phase (Settled (inl error)) t, s)
      | None =>
          match open_fault (faults (t_fate t) (t_file t)) with
          | Some error => (to_phase (Unlinking error) t, issue (SysOpen (t_url t)) s)
          | None =>
              (to_phase (Piping (delivered (t_fate t) stream) 0) t,
               sys_open (t_url t) s)
          end
      end
  | Piping [] k =>
      match failure stream with
      | Some error => (to_phase (Unlinking error) t, s)
      | None => (to_phase (Settled (inr (stored_args (t_fate t) (t_file t)))) t, s)
      end
  | Piping (c :: rest) k =>
      match write_fault (faults (t_fate t) (t_file t)) k with
      | Some error =>
          (to_phase (Unlinking error) t,
           sys_write (t_url t)
             (byte_prefix (short_write (faults (t_fate t) (t_file t))) c) s)
      | None => (to_phase (Piping rest (S k)) t, sys_write (t_url t) c s)
      end
  | Unlinking error =>
      (to_phase (Settled (inl error)) t,
       sys_unlink (unlink_fails (t_fate t)) (t_url t) s)
  | Settled _ => (t, s)
  end.

Definition settled (t : Task) : bool :=
  match t_phase t with Settled _ => true | _ => false end.

Fixpoint steps (n : nat) (t : Task) (s : Storage) : Task * Storage :=
  match n with
  | 0 => (t, s)
  | S n' => let '(t', s') := step t s in steps n' t' s'
  end.

End Repo.

(** ** A pool of tasks served by the event loop

    [tick i] delivers the next event of task [i]; a schedule is the list of
    the indices served, in order. Serving an index outside the pool, or a
    task that is final, changes nothing. *)
Section Pool.
Context {T W : Type}.
Variable advance : T → W → T * W.
Variable final : T → bool.

Definition tick (i : nat) (p : list T * W) : list T * W :=
  match p.1 !! i with
  | Some t => let '(t', w') := advance t p.2 in (<[i := t']> p.1, w')
  | None => p
  end.

Definition run (sched : list nat) (p : list T * W) : list T * W :=
  foldl (λ q i, tick i q) p sched.

Definition final_at (i : nat) (p : list T * W) : bool :=
  match p.1 !! i with Some t => final t | None => false end.

(** The indices of the tasks that become final during the schedule, in the
    order in which they do. *)
Fixpoint completions (sched : list nat) (p : list T * W) : list nat :=
  match sched with
  | [] => []
  | i :: rest =>
      let p' := tick i p in
      (if negb (final_at i p) && final_at i p' then [i] else [])
        ++ completions rest p'
  end.

End Pool.

(** ** The resolvers *)

(** One element of [files] with what the environment decides for the call of
    [storeUpload] made for it. *)
Record Job := mkJob {
  upload : Upload;
  fate : Fate
}.

Record World := mkWorld {
  console : list string;
  storage : Storage
}.

(** What the caller of an async resolver observes. *)
Inductive Outcome :=
| Pending
| Returned (value : list FileArgs.t)
| Thrown (reason : Error).

Definition diagnostic (reason : Error) : string :=
  "Failed to store upload: " +:+ reason.

Section Resolvers.
Variable new_URL : string → string.

(** *** First version: [Promise.allSettled(files.map(storeUpload))] *)

(** [Promise.allSettled]: settles, with every result in the order of its
    argument, once every promise is settled; it never rejects. *)
Definition Promise_allSettled (ts : list Task) : option (list (Error + FileArgs.t)) :=
  mapM (λ t, match t_phase t with Settled r => Some r | _ => None end) ts.

(** The body of the [for ... of] loop. *)
Definition collect (acc : list FileArgs.t * list string) (result : Error + FileArgs.t)
    : list FileArgs.t * list string :=
  match result with
  | inr value => (acc.1 ++ [value], acc.2)
  | inl reason => (acc.1, acc.2 ++ [diagnostic reason])
  end.

Definition launch_job (j : Job) : Task := launch (fate j) (file (upload j)).

(** [files.map(storeUpload)]: every call is made, one after the other, before
    any event is served. *)
Definition startA (files : list Job) (w : World) : list Task * Storage :=
  (launch_job <$> files, storage w).

Definition poolA (sched : list nat) (files : list Job) (w : World) : list Task * Storage :=
  run (step new_URL) sched (startA files w).

Definition multipleUpload_allSettled (sched : list nat) (files : list Job) (w : World)
    : Outcome * World :=
  let p := poolA sched files w in
  match Promise_allSettled p.1 with
  | None => (Pending, {| console := console w; storage := p.2 |})
  | Some results =>
      let '(storedFileNames, out) := foldl collect ([], console w) results in
      (Returned storedFileNames, {| console := out; storage := p.2 |})
  end.

(** *** Second version: [Promise.all] over one async task per upload *)

(** The async arrow function given to [map]: suspended on [await promise],
    inside [storeUpload], or finished ([inr tt]: returned; [inl e]: threw). *)
Inductive TaskB :=
| Awaiting (j : Job)
| Storing (t : Task)
| Finished (r : Error + unit).

Record Resolver := mkResolver {
  storedFileNames : list FileArgs.t;
  diagnostics : list string;
  disk_state : Storage
}.

Definition push (value : FileArgs.t) (r : Resolver) : Resolver :=
  {| storedFileNames := storedFileNames r ++ [value];
     diagnostics := diagnostics r; disk_state := disk_state r |}.

Definition console_error (reason : Error) (r : Resolver) : Resolver :=
  {| storedFileNames := storedFileNames r;
     diagnostics := diagnostics r ++ [diagnostic reason];
     disk_state := disk_state r |}.

Definition on_disk (s : Storage) (r : Resolver) : Resolver :=
  {| storedFileNames := storedFileNames r; diagnostics := diagnostics r;
     disk_state := s |}.

Definition stepB (t : TaskB) (r : Resolver) : TaskB * Resolver :=
  match t with
  | Awaiting j =>
      match promise (upload j) with
      | inr f => (Storing (launch (fate j) f), r)
      | inl error => (Finished (inr tt), console_error error r)
      end
  | Storing t =>
      let '(t', s') := step new_URL t (disk_state r) in
      match t_phase t' with
      | Settled (inr value) => (Finished (inr tt), push value (on_disk s' r))
      | Settled (inl error) => (Finished (inr tt), console_error error (on_disk s' r))
      | _ => (Storing t', on_disk s' r)
      end
  | Finished _ => (t, r)
  end.

Definition finishedB (t : TaskB) : bool :=
  match t with Finished _ => true | _ => false end.

(** [Promise.all]: rejected as soon as one promise is rejected, fulfilled
    once all are fulfilled. On a snapshot of the tasks the reason reported
    is that of the first rejected task of the list. *)
Inductive Join :=
| JoinPending
| JoinFulfilled
| JoinRejected (reason : Error).

Fixpoint Promise_all (ts : list TaskB) : Join :=
  match ts with
  | [] => JoinFulfilled
  | t :: rest =>
      match t, Promise_all rest with
      | Finished (inl e), _ => JoinRejected e
      | _, JoinRejected e => JoinRejected e
      | Finished (inr _), j => j
      | _, _ => JoinPending
      end
  end.

(** [filesProfiles.map(async ...)]: every task runs up to its first
    [await] before any event is served. *)
Definition startB (files : list Job) (w : World) : list TaskB * Resolver :=
  (Awaiting <$> files,
   {| storedFileNames := []; diagnostics := console w; disk_state := storage w |}).

Definition poolB (sched : list nat) (files : list Job) (w : World) : list TaskB * Resolver :=
  run stepB sched (startB files w).

(** The order in which the calls settle (first version) and in which the
    tasks finish (second version). *)
Definition settle_order (sched : list nat) (files : list Job) (w : World) : list nat :=
  completions (step new_URL) settled sched (startA files w).

Definition finish_order (sched : list nat) (files : list Job) (w : World) : list nat :=
  completions stepB finishedB sched (startB files w).

Definition multipleUpload_all (sched : list nat) (files : list Job) (w : World)
    : Outcome * World :=
  let p := poolB sched files w in
  let w' := {| console := diagnostics p.2; storage := disk_state p.2 |} in
  match Promise_all p.1 with
  | JoinPending => (Pending, w')
  | JoinFulfilled => (Returned (storedFileNames p.2), w')
  | JoinRejected e => (Thrown e, w')
  end.

(** *** [Query.uploads] *)
Definition uploads (w : World) : (Error + list string) * World :=
  let '(r, s') := readdir (storage w) in
  (r, {| console := console w; storage := s' |}).

(** [Mutation.singleUpload] *)
Definition singleUpload (φ : Fate) (u : Upload) (w : World)
    : (Error + FileArgs.t) * World :=
  let '(r, s') := storeUpload new_URL φ (file u) (storage w) in
  (r, {| console := console w; storage := s' |}).

End Resolvers.

(** ** What a call is bound to produce

    The result of a call of [storeUpload] is decided by the stream and the
    fate alone; [eventual] reads it off a task at any point of its run, and
    [remaining] bounds the events the task still needs. *)

Fixpoint pipe_result (d : DiskFault) (k : nat) (cs : list string)
    (ending : option Error) (a : FileArgs.t) : Error + FileArgs.t :=
  match cs with
  | [] => match ending with Some e => inl e | None => inr a end
  | _ :: rest =>
      match write_fault d k with
      | Some e => inl e
      | None => pipe_result d (S k) rest ending a
      end
  end.

Definition eventual (t : Task) : Error + FileArgs.t :=
  let stream := FileUpload.createReadStream (t_file t) in
  let a := stored_args (t_fate t) (t_file t) in
  match t_phase t with
  | Opening =>
      match throws (t_fate t) (storedFileName_of (t_fate t) (t_file t)) with
      | Some e => inl e
      | None =>
          match open_fault (faults (t_fate t) (t_file t)) with
          | Some e => inl e
          | None =>
              pipe_result (faults (t_fate t) (t_file t)) 0
                (delivered (t_fate t) stream) (failure stream) a
          end
      end
  | Piping rest k => pipe_result (faults (t_fate t) (t_file t)) k rest (failure stream) a
  | Unlinking e => inl e
  | Settled r => r
  end.

Definition remaining (t : Task) : nat :=
  match t_phase t with
  | Opening => length (chunks (FileUpload.createReadStream (t_file t))) + 3
  | Piping rest _ => length rest + 2
  | Unlinking _ => 1
  | Settled _ => 0
  end.

Definition remainingB (t : TaskB) : nat :=
  match t with
  | Awaiting j =>
      match promise (upload j) with
      | inr f => length (chunks (FileUpload.createReadStream f)) + 5
      | inl _ => 1
      end
  | Storing t => S (remaining t)
  | Finished _ => 0
  end.

(** The bytes of an upload, all chunks together. *)
Definition whole (f : FileUpload.t) : string :=
  foldr String.append "" (chunks (FileUpload.createReadStream f)).

Definition fulfilled {A : Type} (r : Error + A) : option A :=
  match r with inr a => Some a | inl _ => None end.

Definition rejected {A : Type} (r : Error + A) : option Error :=
  match r with inl e => Some e | inr _ => None end.

Section Verdicts.
Variable new_URL : string → string.

(** The path [storeUpload] writes to for a given file and fate. *)
Definition target (φ : Fate) (f : FileUpload.t) : string :=
  new_URL (storedFileName_of φ f).

(** How the call made for a job ends, given the file object the resolver
    gets for it: [read_file] is [upload.file] (first version), [await_promise]
    is the outcome of [await promise] (second version). *)
Definition job_result (read : Job → Error + FileUpload.t) (s : Storage) (j : Job)
    : Error + FileArgs.t :=
  match read j with
  | inl e => inl e
  | inr f => (storeUpload new_URL (fate j) f s).1
  end.

(** The entry the call made for a job writes to, if a call is made. *)
Definition job_path (read : Job → Error + FileUpload.t) (j : Job) : option string :=
  match read j with
  | inl _ => None
  | inr f => Some (target (fate j) f)
  end.

(** The same for a task of the second version, at any point of its run:
    nothing is left to happen once it is finished. *)
Definition eventualB (t : TaskB) : option (Error + FileArgs.t) :=
  match t with
  | Awaiting j =>
      Some match promise (upload j) with
           | inl e => inl e
           | inr f => eventual (launch (fate j) f)
           end
  | Storing t => Some (eventual t)
  | Finished _ => None
  end.

Definition urlB (t : TaskB) : option string :=
  match t with
  | Awaiting j => job_path (λ j, promise (upload j)) j
  | Storing t => Some (t_url new_URL t)
  | Finished _ => None
  end.

(** The entry of a task holds the chunks written so far: together with the
    chunks still to come they make the whole upload. *)
Definition tracked (t : Task) (m : gmap string string) : Prop :=
  match t_phase t with
  | Piping rest _ =>
      failure (FileUpload.createReadStream (t_file t)) = None →
      ∃ pre, m !! t_url new_URL t = Some pre
             ∧ pre +:+ foldr String.append "" rest = whole (t_file t)
  | Settled (inr _) => m !! t_url new_URL t = Some (whole (t_file t))
  | _ => True
  end.

Definition trackedB (j : Job) (t : TaskB) (m : gmap string string) : Prop :=
  match t with
  | Awaiting j' => j' = j
  | Storing t' =>
      promise (upload j) = inr (t_file t') ∧ t_fate t' = fate j
      ∧ eventual t' = eventual (launch (fate j) (t_file t'))
      ∧ tracked t' m
  | Finished _ =>
      ∀ f a, promise (upload j) = inr f →
             eventual (launch (fate j) f) = inr a →
             m !! target (fate j) f = Some (whole f)
  end.

(** What a pool of the second version is bound to push or log for task [i]. *)
Definition bound_to (p : list TaskB * Resolver) (i : nat) : option (Error + FileArgs.t) :=
  p.1 !! i ≫= eventualB.

End Verdicts.

Definition read_file (j : Job) : Error + FileUpload.t := inr (file (upload j)).
Definition await_promise (j : Job) : Error + FileUpload.t := promise (upload j).

(** An [Upload] resolves its promise with the object it keeps in its [file]
    field. *)
Definition coherent (u : Upload) : Prop :=
  match promise u with
  | inr f => file u = f
  | inl _ => True
  end.

(** The call made for a handle succeeds in one version exactly when it
    succeeds in the other; the errors of two failures may differ. *)
Definition same_outcome (new_URL : string → string) (s : Storage) (j : Job) : Prop :=
  is_Some (fulfilled (job_result new_URL read_file s j))
  ↔ is_Some (fulfilled (job_result new_URL await_promise s j)).

(** The handles whose call fails, in the order of the input. *)
Definition failed_handles (new_URL : string → string)
    (read : Job → Error + FileUpload.t) (s : Storage) (files : list Job) : list Job :=
  filter (λ j, is_Some (rejected (job_result new_URL read s j))) files.

(** No task of the second version ever throws. *)
Definition caught (t : TaskB) : Prop := ∀ e, t ≠ Finished (inl e).


(** ** What is asked of a batch resolver

    The properties below are stated once and proved of both versions of
    [multipleUpload]. [read] says which file object the version gets for a
    job, [pool] is its pool of tasks after a schedule and [order] the order
    in which its tasks became final. *)
Section Contracts.
Context {T W : Type}.
Variable new_URL : string → string.
Variable multipleUpload : list nat → list Job → World → Outcome * World.
Variable read : Job → Error + FileUpload.t.
Variable pool : list nat → list Job → World → list T * W.
Variable final : T → bool.
Variable order : list nat → list Job → World → list nat.

Definition results_of (files : list Job) (w : World) : list (Error + FileArgs.t) :=
  job_result new_URL read (storage w) <$> files.

Definition never_throws : Prop :=
  ∀ sched files w e, (multipleUpload sched files w).1 ≠ Thrown e.

(** Whatever has happened so far, serving more events makes it return. *)
Definition can_always_return : Prop :=
  ∀ sched files w, ∃ more value,
    (multipleUpload (sched ++ more) files w).1 = Returned value.

Definition returns_the_fulfilled : Prop :=
  ∀ sched files w value w',
    multipleUpload sched files w = (Returned value, w') →
    value ≡ₚ omap fulfilled (results_of files w).

Definition logs_the_rejected : Prop :=
  ∀ sched files w value w',
    multipleUpload sched files w = (Returned value, w') →
    ∃ logged, console w' = console w ++ logged
              ∧ logged ≡ₚ diagnostic <$> omap rejected (results_of files w).

(** A fulfilled call whose target no other job of the batch shares has its
    whole upload in the directory when the resolver returns. *)
Definition keeps_what_was_stored : Prop :=
  ∀ sched files w value w' i j f a,
    multipleUpload sched files w = (Returned value, w') →
    files !! i = Some j →
    read j = inr f →
    job_result new_URL read (storage w) j = inr a →
    (∀ k j', k ≠ i → files !! k = Some j' →
             job_path new_URL read j' ≠ job_path new_URL read j) →
    entries (storage w') !! target new_URL (fate j) f = Some (whole f).

Definition empty_when_all_fail : Prop :=
  ∀ sched files w value w',
    multipleUpload sched files w = (Returned value, w') →
    Forall (λ j, ∃ e, job_result new_URL read (storage w) j = inl e) files →
    value = [].

Definition tolerates_partial_failure : Prop :=
  never_throws ∧ can_always_return ∧ returns_the_fulfilled ∧ logs_the_rejected
  ∧ empty_when_all_fail ∧ keeps_what_was_stored.

(** The result is there exactly when every task is final, and until then
    the resolver is pending. *)
Definition full_join : Prop :=
  ∀ sched files w,
    length (pool sched files w).1 = length files
    ∧ ((∃ value, (multipleUpload sched files w).1 = Returned value)
       ↔ Forall (λ t, final t = true) (pool sched files w).1)
    ∧ ((multipleUpload sched files w).1 = Pending
       ↔ ¬ Forall (λ t, final t = true) (pool sched files w).1).

Definition in_order (files : list Job) (w : World) (indices : list nat)
    : list FileArgs.t :=
  omap (λ i, files !! i ≫= λ j, fulfilled (job_result new_URL read (storage w) j))
       indices.

Definition returns_in_completion_order : Prop :=
  ∀ sched files w value w',
    multipleUpload sched files w = (Returned value, w') →
    value = in_order files w (order sched files w).

Definition returns_in_input_order : Prop :=
  ∀ sched files w value w',
    multipleUpload sched files w = (Returned value, w') →
    value = omap fulfilled (results_of files w).

(** Entries that no call of the batch targets are left as they were. *)
Definition leaves_other_entries : Prop :=
  ∀ sched files w p,
    (∀ j, j ∈ files → job_path new_URL read j ≠ Some p) →
    entries (storage (multipleUpload sched files w).2) !! p
    = entries (storage w) !! p.

End Contracts.

(** ** Sample data *)

(** A stored name without URL syntax in it designates the entry of that
    name. *)
Definition uploads_dir (name : string) : string := name.

Definition empty_dir : Storage :=
  {| entries := ∅; unreadable := None; calls := [] |}.

Definition quiet : World := {| console := []; storage := empty_dir |}.

Definition react_png : FileUpload.t :=
  {| FileUpload.filename := "react.png"; FileUpload.mimetype := "image/png";
     FileUpload.encoding := "7bit";
     FileUpload.createReadStream := {| chunks := ["PNG"; "DATA"]; failure := None |} |}.

(** A client that disconnects after the first chunk. *)
Definition broken_png : FileUpload.t :=
  {| FileUpload.filename := "sql.png"; FileUpload.mimetype := "image/png";
     FileUpload.encoding := "7bit";
     FileUpload.createReadStream :=
       {| chunks := ["PNG"]; failure := Some "Error: Request disconnected" |} |}.

(** Nothing throws, the disk works, [unlink] works; a stream that errors
    does so after its first chunk was written. *)
Definition lucky (id : string) : Fate :=
  {| shortId_generate := id; throws := λ _, None; flushed := 1;
     disk := λ _, NoFault; unlink_fails := false |}.

(** The directory lets files be created and written but not removed. *)
Definition sticky (id : string) : Fate :=
  {| shortId_generate := id; throws := λ _, None; flushed := 1;
     disk := λ _, NoFault; unlink_fails := true |}.

Definition resolved (f : FileUpload.t) : Upload :=
  {| file := f; promise := inr f |}.

Definition sql_png : FileUpload.t :=
  {| FileUpload.filename := "sql.png"; FileUpload.mimetype := "image/png";
     FileUpload.encoding := "7bit";
     FileUpload.createReadStream := {| chunks := ["S"]; failure := None |} |}.

Definition job_react : Job := {| upload := resolved react_png; fate := lucky "a1" |}.
Definition job_broken : Job := {| upload := resolved broken_png; fate := lucky "b2" |}.
(** An upload whose promise rejected: the request exceeded the size limit. *)
Definition job_lost : Job :=
  {| upload := {| file := broken_png;
                  promise := inl "PayloadTooLargeError: File truncated as it exceeds the 5 byte size limit." |};
     fate := lucky "b2" |}.

Definition job_sql : Job := {| upload := resolved sql_png; fate := lucky "c3" |}.

(** A directory that already holds two stored files, and one that cannot be
    read. *)
Definition two_files : World :=
  {| console := [];
     storage := {| entries := {[ "a1-react.png" := "PNGDATA"; "c3-sql.png" := "S" ]};
                   unreadable := None; calls := [] |} |}.

Definition locked_dir : World :=
  {| console := [];
     storage := {| entries := {[ "a1-react.png" := "PNGDATA" ]};
                   unreadable := Some "Error: EACCES: permission denied, scandir";
                   calls := [] |} |}.

(** The event loop serves the two tasks in turn. *)
Definition in_turn : list nat := [0; 1; 0; 1; 0; 1; 0; 1; 0; 1; 0; 1].

(** The second task gets all its events before the first gets any. *)
Definition last_first : list nat := [1; 1; 1; 1; 1; 0; 0; 0; 0; 0; 0].

(** ** The paths of file-system calls *)

(** The entry a call is about; [readdir] is about the directory itself. *)
Definition call_path (c : Syscall) : option string :=
  match c with
  | SysOpen p | SysWrite p _ | SysUnlink p => Some p
  | SysReaddir => None
  end.

(** The bytes that reached an entry according to a record of calls, in the
    order in which they did. *)
Fixpoint written_bytes (path : string) (cs : list Syscall) : string :=
  match cs with
  | [] => ""
  | SysWrite p bytes :: rest =>
      if decide (p = path) then bytes +:+ written_bytes path rest
      else written_bytes path rest
  | _ :: rest => written_bytes path rest
  end.

(** Another upload under the client filename of [react_png]. *)
Definition react_again : FileUpload.t :=
  {| FileUpload.filename := "react.png"; FileUpload.mimetype := "image/png";
     FileUpload.encoding := "7bit";
     FileUpload.createReadStream := {| chunks := ["NEW"]; failure := None |} |}.

(** The disk fills up two bytes into the second chunk, and the directory
    does not let the file be removed. *)
Definition disk_full_sticky (id : string) : Fate :=
  {| shortId_generate := id; throws := λ _, None; flushed := 0;
     disk := λ _, WriteFails 1 2 "Error: ENOSPC"; unlink_fails := true |}.


(** ** Facts about [storeUpload] *)

Lemma append_assoc (a b c : string) : (a +:+ b) +:+ c = a +:+ (b +:+ c).
Proof.
  induction a as [|x a IH]; [reflexivity|].
  change ((String x a +:+ b) +:+ c) with (String x ((a +:+ b) +:+ c)).
  change (String x a +:+ (b +:+ c)) with (String x (a +:+ (b +:+ c))).
  by rewrite IH.
Qed.

Lemma append_empty_r (a : string) : a +:+ "" = a.
Proof.
  induction a as [|x a IH]; [reflexivity|].
  change (String x a +:+ "") with (String x (a +:+ "")). by rewrite IH.
Qed.

Lemma byte_prefix_split n c : ∃ rest, byte_prefix n c +:+ rest = c.
Proof.
  revert c. induction n as [|n IH]; intros [|a c]; simpl; try (by eexists).
  destruct (IH c) as [rest Hrest]. exists rest.
  change (String a (byte_prefix n c) +:+ rest)
    with (String a (byte_prefix n c +:+ rest)). by rewrite Hrest.
Qed.

Lemma concat_take_drop (cs : list string) n :
  foldr String.append "" (take n cs) +:+ foldr String.append "" (drop n cs)
  = foldr String.append "" cs.
Proof.
  revert n. induction cs as [|c cs IH]; intros [|n]; simpl; try done.
  by rewrite append_assoc, IH.
Qed.

Section StoreProofs.
Variable new_URL : string → string.

Lemma pipe_frame d url k cs s p :
  p ≠ url → entries (pipe d url k cs s).2 !! p = entries s !! p.
Proof.
  intros Hne. revert k s. induction cs as [|c rest IH]; intros k s; simpl; [done|].
  destruct (write_fault d k); simpl; [by rewrite lookup_insert_ne|].
  rewrite IH. simpl. by rewrite lookup_insert_ne.
Qed.

(** The target holds what was there when the piping began followed by the
    bytes written: a prefix of the chunks, and all of them when no write
    failed. *)
Lemma pipe_content d url k cs s pre :
  entries s !! url = Some pre →
  ∃ written, entries (pipe d url k cs s).2 !! url = Some (pre +:+ written)
             ∧ (∃ rest, written +:+ rest = foldr String.append "" cs)
             ∧ ((pipe d url k cs s).1 = None → written = foldr String.append "" cs).
Proof.
  revert k s pre. induction cs as [|c rest IH]; intros k s pre Hpre; simpl.
  - exists "". rewrite append_empty_r. split; [done|]. split; [by exists ""|done].
  - destruct (write_fault d k) as [e|]; simpl.
    + exists (byte_prefix (short_write d) c). rewrite lookup_insert_eq, Hpre.
      split; [done|]. split; [|done].
      destruct (byte_prefix_split (short_write d) c) as [r Hr].
      exists (r +:+ foldr String.append "" rest).
      by rewrite <- append_assoc, Hr.
    + destruct (IH (S k) (sys_write url c s) (pre +:+ c))
        as (written & Hw & [r Hr] & Hall).
      { simpl. rewrite lookup_insert_eq. by rewrite Hpre. }
      exists (c +:+ written). split; [by rewrite Hw, append_assoc|]. split.
      * exists r. by rewrite append_assoc, Hr.
      * intros Hnone. by rewrite (Hall Hnone).
Qed.


Lemma pipe_result_spec d url k cs s ending a :
  match (pipe d url k cs s).1 with
  | Some e => inl e
  | None => match ending with Some e => inl e | None => inr a end
  end = pipe_result d k cs ending a.
Proof.
  revert k s. induction cs as [|c rest IH]; intros k s; simpl; [done|].
  destruct (write_fault d k); simpl; [done|]. apply IH.
Qed.

Lemma length_delivered φ stream :
  (length (delivered φ stream) ≤ length (chunks stream))%nat.
Proof.
  unfold delivered. destruct (failure stream); [|done].
  rewrite length_take. lia.
Qed.

(** A throw in the synchronous part: the call is rejected and the directory
    is not touched. *)
Lemma storeUpload_early φ f s e :
  throws φ (storedFileName_of φ f) = Some e →
  storeUpload new_URL φ f s = (inl e, s).
Proof. unfold storeUpload. by intros ->. Qed.

(** The result of a call does not depend on the directory it runs in. *)
Lemma storeUpload_eventual φ f s :
  (storeUpload new_URL φ f s).1 = eventual (launch φ f).
Proof.
  unfold storeUpload, eventual. simpl.
  destruct (throws φ (storedFileName_of φ f)); [done|].
  destruct (open_fault (faults φ f)); [done|].
  rewrite <- (pipe_result_spec _ (new_URL (storedFileName_of φ f)) _ _
                (sys_open (new_URL (storedFileName_of φ f)) s)).
  destruct (pipe _ _ _ _ _) as [[e|] s1]; simpl; [done|].
  by destruct (failure _).
Qed.

(** Only the target entry can change. *)
Lemma storeUpload_frame φ f s p :
  p ≠ target new_URL φ f →
  entries (storeUpload new_URL φ f s).2 !! p = entries s !! p.
Proof.
  intros Hne. unfold storeUpload, target in *.
  assert (Hu : ∀ b s0, entries (sys_unlink b (new_URL (storedFileName_of φ f)) s0) !! p
                       = entries s0 !! p).
  { intros [] s0; simpl; [done|]. by rewrite lookup_delete_ne. }
  assert (Hp : ∀ s1, (pipe (faults φ f) (new_URL (storedFileName_of φ f)) 0
                     (delivered φ (FileUpload.createReadStream f))
                     (sys_open (new_URL (storedFileName_of φ f)) s)) = s1 →
                entries s1.2 !! p = entries s !! p).
  { intros s1 <-. rewrite pipe_frame by done. simpl. by rewrite lookup_insert_ne. }
  destruct (throws φ (storedFileName_of φ f)); cbn [snd]; [done|].
  destruct (open_fault (faults φ f)); cbn [snd]; [by rewrite Hu|].
  destruct (pipe _ _ _ _ _) as [[e|] s1] eqn:Hpipe; cbn [snd].
  - rewrite Hu. apply (Hp _ eq_refl).
  - destruct (failure _); cbn [snd]; [rewrite Hu|]; apply (Hp _ eq_refl).
Qed.

Lemma storeUpload_success_content φ f s a s' :
  storeUpload new_URL φ f s = (inr a, s') →
  entries s' = <[target new_URL φ f := whole f]> (entries s).
Proof.
  unfold storeUpload, target, whole, delivered.
  destruct (throws φ (storedFileName_of φ f)); [done|].
  destruct (open_fault (faults φ f)); [done|].
  destruct (failure (FileUpload.createReadStream f)) eqn:Hf.
  { by destruct (pipe _ _ _ _ _) as [[e1|] s1]. }
  destruct (pipe_content (faults φ f) (new_URL (storedFileName_of φ f)) 0
              (chunks (FileUpload.createReadStream f))
              (sys_open (new_URL (storedFileName_of φ f)) s) "")
    as (written & Hw & _ & Hall).
  { simpl. by rewrite lookup_insert_eq. }
  pose proof (pipe_frame (faults φ f) (new_URL (storedFileName_of φ f)) 0
              (chunks (FileUpload.createReadStream f))
              (sys_open (new_URL (storedFileName_of φ f)) s)) as Hfr.
  destruct (pipe _ _ _ _ _) as [[e|] s1]; [done|].
  intros [= <- <-].
  simpl in *. rewrite (Hall eq_refl) in Hw.
  apply map_eq. intros p. destruct (decide (p = new_URL (storedFileName_of φ f))) as [->|Hne].
  - by rewrite lookup_insert_eq, Hw.
  - rewrite lookup_insert_ne by done. rewrite Hfr by done. by rewrite lookup_insert_ne.
Qed.

(** A failure that comes once the write stream exists, with an [unlink]
    that works: the target is gone, whatever it held. *)
Lemma storeUpload_failure_content φ f s e s' :
  storeUpload new_URL φ f s = (inl e, s') →
  throws φ (storedFileName_of φ f) = None →
  unlink_fails φ = false →
  entries s' = delete (target new_URL φ f) (entries s).
Proof.
  intros Hs Ht Hu. apply map_eq. intros p.
  destruct (decide (p = target new_URL φ f)) as [->|Hne].
  - rewrite lookup_delete_eq. revert Hs. unfold storeUpload, target. rewrite Ht, Hu.
    destruct (open_fault (faults φ f)).
    { intros [= <- <-]. simpl. by rewrite lookup_delete_eq. }
    destruct (pipe _ _ _ _ _) as [[e'|] s1].
    { intros [= <- <-]. simpl. by rewrite lookup_delete_eq. }
    destruct (failure _); [|done].
    intros [= <- <-]. simpl. by rewrite lookup_delete_eq.
  - rewrite lookup_delete_ne by done.
    replace s' with (storeUpload new_URL φ f s).2 by (by rewrite Hs).
    by apply storeUpload_frame.
Qed.

(** A failure with an [unlink] that works, on a name that was free: the
    entries are what they were. *)
Lemma storeUpload_failure_fresh φ f s e s' :
  storeUpload new_URL φ f s = (inl e, s') →
  unlink_fails φ = false →
  entries s !! target new_URL φ f = None →
  entries s' = entries s.
Proof.
  intros Hs Hu Hfresh.
  destruct (throws φ (storedFileName_of φ f)) as [e0|] eqn:Ht.
  - rewrite (storeUpload_early _ _ _ _ Ht) in Hs. by injection Hs as <- <-.
  - rewrite (storeUpload_failure_content _ _ _ _ _ Hs Ht Hu). by apply delete_id.
Qed.

End StoreProofs.

Section StoreClaims.
Variable new_URL : string → string.

(** C3: a successful [storeUpload] returns a filename made of the identifier
    that [shortId.generate()] returned to this very call, a hyphen, and the
    filename the client supplied; so it ends with the original filename. *)
Theorem storeUpload_filename_pattern φ f s a s' :
  storeUpload new_URL φ f s = (inr a, s') →
  FileArgs.filename a = shortId_generate φ +:+ "-" +:+ FileUpload.filename f
  ∧ ∃ prefix, FileArgs.filename a = prefix +:+ FileUpload.filename f.
Proof.
  unfold storeUpload.
  destruct (throws φ (storedFileName_of φ f)); [done|].
  destruct (open_fault (faults φ f)); [done|].
  destruct (pipe _ _ _ _ _) as [[e|] s1]; [done|].
  destruct (failure _); [done|].
  intros [= <- <-]. split; [reflexivity|].
  exists (shortId_generate φ +:+ "-"). simpl. unfold storedFileName_of.
  by rewrite append_assoc.
Qed.

(** C4: a successful [storeUpload] returns the mimetype and the encoding of
    the handle it was given, unchanged. *)
Theorem storeUpload_keeps_mimetype_encoding φ f s a s' :
  storeUpload new_URL φ f s = (inr a, s') →
  FileArgs.mimetype a = FileUpload.mimetype f
  ∧ FileArgs.encoding a = FileUpload.encoding f.
Proof.
  unfold storeUpload.
  destruct (throws φ (storedFileName_of φ f)); [done|].
  destruct (open_fault (faults φ f)); [done|].
  destruct (pipe _ _ _ _ _) as [[e|] s1]; [done|].
  destruct (failure _); [done|].
  by intros [= <- <-].
Qed.


End StoreClaims.

Lemma storeUpload_filename_pattern_witness :
  storeUpload uploads_dir (lucky "a1") react_png empty_dir
    = (inr (stored_args (lucky "a1") react_png),
       (storeUpload uploads_dir (lucky "a1") react_png empty_dir).2)
  ∧ FileArgs.filename (stored_args (lucky "a1") react_png) = "a1" +:+ "-" +:+ "react.png"
  ∧ ∃ prefix, FileArgs.filename (stored_args (lucky "a1") react_png)
              = prefix +:+ "react.png".
Proof.
  assert (H : storeUpload uploads_dir (lucky "a1") react_png empty_dir
              = (inr (stored_args (lucky "a1") react_png),
                 (storeUpload uploads_dir (lucky "a1") react_png empty_dir).2))
    by (vm_compute; reflexivity).
  split; [exact H|].
  exact (storeUpload_filename_pattern uploads_dir _ _ _ _ _ H).
Defined.

Lemma storeUpload_keeps_mimetype_encoding_witness :
  storeUpload uploads_dir (lucky "a1") react_png empty_dir
    = (inr (stored_args (lucky "a1") react_png),
       (storeUpload uploads_dir (lucky "a1") react_png empty_dir).2)
  ∧ FileArgs.mimetype (stored_args (lucky "a1") react_png) = "image/png"
  ∧ FileArgs.encoding (stored_args (lucky "a1") react_png) = "7bit".
Proof.
  assert (H : storeUpload uploads_dir (lucky "a1") react_png empty_dir
              = (inr (stored_args (lucky "a1") react_png),
                 (storeUpload uploads_dir (lucky "a1") react_png empty_dir).2))
    by (vm_compute; reflexivity).
  split; [exact H|].
  exact (storeUpload_keeps_mimetype_encoding uploads_dir _ _ _ _ _ H).
Defined.



(** ** Facts about pools *)

Section PoolFacts.
Context {T W : Type}.
Variable advance : T → W → T * W.
Variable final : T → bool.
Hypothesis final_stuck : ∀ t w, final t = true → advance t w = (t, w).

Local Abbreviation tick := (tick advance).
Local Abbreviation run := (run advance).
Local Abbreviation final_at := (final_at final).
Local Abbreviation completions := (completions advance final).

Lemma run_cons i sched p : run (i :: sched) p = run sched (tick i p).
Proof. reflexivity. Qed.

Lemma run_app s1 s2 p : run (s1 ++ s2) p = run s2 (run s1 p).
Proof. apply foldl_app. Qed.

(** An invariant of every tick is an invariant of every run. *)
Lemma run_invariant (P : list T * W → Prop) sched p :
  (∀ i q, P q → P (tick i q)) → P p → P (run sched p).
Proof.
  intros Hstep. revert p. induction sched as [|i sched IH]; intros p Hp; [done|].
  rewrite run_cons. apply IH, Hstep, Hp.
Qed.

Lemma tick_outside i p : p.1 !! i = None → tick i p = p.
Proof. unfold tick. by intros ->. Qed.

Lemma tick_inside i p t :
  p.1 !! i = Some t →
  tick i p = (<[i := (advance t p.2).1]> p.1, (advance t p.2).2).
Proof. unfold tick. intros ->. by destruct (advance t p.2). Qed.

Lemma tick_length i p : length (tick i p).1 = length p.1.
Proof.
  destruct (p.1 !! i) as [t|] eqn:Hi.
  - rewrite (tick_inside _ _ _ Hi). simpl. apply length_insert.
  - by rewrite tick_outside.
Qed.

Lemma run_length sched p : length (run sched p).1 = length p.1.
Proof.
  apply (run_invariant (λ q, length q.1 = length p.1)); [|done].
  intros i q Hq. by rewrite tick_length.
Qed.

Lemma tick_lookup_ne i j p : i ≠ j → (tick i p).1 !! j = p.1 !! j.
Proof.
  intros Hne. destruct (p.1 !! i) as [t|] eqn:Hi.
  - rewrite (tick_inside _ _ _ Hi). simpl. by apply list_lookup_insert_ne.
  - by rewrite tick_outside.
Qed.

Lemma tick_lookup_eq i p t :
  p.1 !! i = Some t → (tick i p).1 !! i = Some (advance t p.2).1.
Proof.
  intros Hi. rewrite (tick_inside _ _ _ Hi). simpl.
  apply list_lookup_insert_eq. by eapply lookup_lt_Some.
Qed.

Lemma tick_final_task i p t :
  p.1 !! i = Some t → final t = true → tick i p = p.
Proof.
  intros Hi Hf. rewrite (tick_inside _ _ _ Hi), (final_stuck _ _ Hf). simpl.
  rewrite list_insert_id by done. by destruct p.
Qed.

(** A final task stays final. *)
Lemma tick_final i j p : final_at j p = true → final_at j (tick i p) = true.
Proof.
  unfold final_at. destruct (decide (i = j)) as [->|Hne].
  - destruct (p.1 !! j) as [t|] eqn:Hj; [|done]. intros Hf.
    by rewrite (tick_final_task _ _ _ Hj Hf), Hj.
  - by rewrite tick_lookup_ne.
Qed.

Lemma run_final sched j p : final_at j p = true → final_at j (run sched p) = true.
Proof.
  intros Hf. apply (run_invariant (λ q, final_at j q = true)); [|done].
  intros i q. apply tick_final.
Qed.

Lemma completions_elem sched p i :
  i ∈ completions sched p ↔ final_at i p = false ∧ final_at i (run sched p) = true.
Proof.
  revert p. induction sched as [|i0 sched IH]; intros p; simpl.
  - split; [by intros ?%elem_of_nil|]. intros [H1 H2]. congruence.
  - rewrite elem_of_app, IH. split.
    + intros [Hhead|[Hnot Hend]].
      * destruct (final_at i0 p) eqn:H0; simpl in Hhead; [by apply elem_of_nil in Hhead|].
        destruct (final_at i0 (tick i0 p)) eqn:H1; [|by apply elem_of_nil in Hhead].
        apply list_elem_of_singleton in Hhead as ->.
        split; [done|]. by apply run_final.
      * split; [|done]. destruct (final_at i p) eqn:Hp; [|done].
        by rewrite (tick_final i0 i p Hp) in Hnot.
    + intros [Hp Hend]. destruct (final_at i (tick i0 p)) eqn:Hq; [|by right].
      left. destruct (decide (i0 = i)) as [->|Hne].
      * rewrite Hp, Hq. simpl. by apply list_elem_of_singleton.
      * unfold final_at in Hp, Hq. rewrite tick_lookup_ne in Hq by done. congruence.
Qed.

Lemma completions_NoDup sched p : NoDup (completions sched p).
Proof.
  revert p. induction sched as [|i0 sched IH]; intros p; simpl; [constructor|].
  apply NoDup_app. split; [|split; [|apply IH]].
  - destruct (_ && _); [apply NoDup_singleton|constructor].
  - intros i Hhead Htail.
    destruct (negb (final_at i0 p) && final_at i0 (tick i0 p)) eqn:Hc;
      [|by apply elem_of_nil in Hhead].
    apply list_elem_of_singleton in Hhead as ->.
    apply andb_true_iff in Hc as [_ Hc].
    apply completions_elem in Htail as [Hn _]. congruence.
Qed.

(** When no task is final at the start and every task is at the end, each
    index completes exactly once. *)
Lemma completions_all sched p :
  Forall (λ t, final t = false) p.1 →
  Forall (λ t, final t = true) (run sched p).1 →
  completions sched p ≡ₚ seq 0 (length p.1).
Proof.
  intros Hstart Hend. apply NoDup_Permutation;
    [apply completions_NoDup|apply NoDup_seq|].
  intros i. rewrite completions_elem, elem_of_seq. unfold final_at. split.
  - intros [_ H]. destruct ((run sched p).1 !! i) eqn:Hi; [|done].
    apply lookup_lt_Some in Hi. rewrite run_length in Hi. lia.
  - intros [_ Hi]. simpl in Hi.
    destruct (lookup_lt_is_Some_2 p.1 i Hi) as [t Ht].
    rewrite Ht. split; [by eapply (Forall_lookup_1 _ _ _ _ Hstart)|].
    rewrite <- (run_length sched) in Hi.
    destruct (lookup_lt_is_Some_2 _ i Hi) as [t' Ht'].
    rewrite Ht'. by eapply (Forall_lookup_1 _ _ _ _ Hend).
Qed.

(** With a measure that every event of a running task decreases, every
    pool can be driven until all its tasks are final. *)
Section Measure.
Variable μ : T → nat.
Hypothesis μ_decreases : ∀ t w, final t = false → μ (advance t w).1 < μ t.

Lemma sum_insert (l : list T) i x y :
  l !! i = Some y →
  sum_list (μ <$> <[i := x]> l) + μ y = sum_list (μ <$> l) + μ x.
Proof.
  revert i. induction l as [|z l IH]; intros [|i] Hi; simplify_eq/=; [lia|].
  specialize (IH _ Hi). lia.
Qed.

Lemma completable p : ∃ more, Forall (λ t, final t = true) (run more p).1.
Proof.
  remember (sum_list (μ <$> p.1)) as n eqn:Hn. revert p Hn.
  induction n as [n IH] using lt_wf_ind. intros p Hn.
  destruct (decide (Forall (λ t, final t = true) p.1)) as [Hall|Hnot].
  { by exists []. }
  apply not_Forall_Exists in Hnot; [|intros t; apply _].
  apply Exists_exists in Hnot as (t & Hin & Hf).
  apply list_elem_of_lookup in Hin as [i Hi].
  apply not_true_is_false in Hf.
  assert (Hlt : sum_list (μ <$> (tick i p).1) < n).
  { subst n. rewrite (tick_inside _ _ _ Hi). simpl.
    pose proof (sum_insert p.1 i (advance t p.2).1 t Hi).
    pose proof (μ_decreases t p.2 Hf). lia. }
  destruct (IH _ Hlt (tick i p) eq_refl) as [more Hmore].
  exists (i :: more). by rewrite run_cons.
Qed.

End Measure.
End PoolFacts.

(** ** Facts about the events of one call *)

Ltac step_cases t :=
  destruct t as [f φ [| [|c rest] k | e | r]]; unfold step; cbn [t_phase t_fate t_file];
  [ destruct (throws φ (storedFileName_of φ f));
    [|destruct (open_fault (faults φ f))]
  | destruct (failure (FileUpload.createReadStream f)) eqn:Hfail
  | destruct (write_fault (faults φ f) k) eqn:Hwf
  |
  | ].

Section StepFacts.
Variable new_URL : string → string.

Local Abbreviation step := (step new_URL).
Local Abbreviation t_url := (t_url new_URL).
Local Abbreviation tracked := (tracked new_URL).

Lemma step_settled t s : settled t = true → step t s = (t, s).
Proof. step_cases t; done. Qed.

Lemma step_file t s : t_file (step t s).1 = t_file t.
Proof. step_cases t; done. Qed.

Lemma step_fate t s : t_fate (step t s).1 = t_fate t.
Proof. step_cases t; done. Qed.

Lemma step_url t s : t_url (step t s).1 = t_url t.
Proof. unfold t_url. by rewrite step_file, step_fate. Qed.

Lemma step_eventual t s : eventual (step t s).1 = eventual t.
Proof. unfold eventual; step_cases t; simpl; rewrite ?Hwf, ?Hfail; done. Qed.

Lemma settled_eventual t r : t_phase t = Settled r → eventual t = r.
Proof. unfold eventual. by intros ->. Qed.

Lemma step_remaining t s : settled t = false → remaining (step t s).1 < remaining t.
Proof.
  step_cases t; unfold remaining, settled; simpl; try done; try lia.
  pose proof (length_delivered φ (FileUpload.createReadStream f)). lia.
Qed.

Lemma step_frame t s p : p ≠ t_url t → entries (step t s).2 !! p = entries s !! p.
Proof.
  intros Hne. step_cases t; simpl; try done.
  - by rewrite lookup_insert_ne.
  - by rewrite lookup_insert_ne.
  - by rewrite lookup_insert_ne.
  - destruct (unlink_fails φ); simpl; [done|]. by rewrite lookup_delete_ne.
Qed.

Lemma step_tracked t s :
  tracked t (entries s) → tracked (step t s).1 (entries (step t s).2).
Proof.
  step_cases t; unfold tracked, t_url; simpl; try done.
  - intros _ Hf. exists "". rewrite lookup_insert_eq. split; [done|].
    unfold whole, delivered. by rewrite Hf.
  - intros H. destruct (H Hfail) as (pre & Hpre & Hw).
    rewrite append_empty_r in Hw. by rewrite Hpre, Hw.
  - intros H Hf. destruct (H Hf) as (pre & Hpre & Hw). exists (pre +:+ c).
    rewrite lookup_insert_eq, Hpre. split; [done|]. by rewrite append_assoc.
Qed.

Lemma step_tracked_other t u s :
  t_url u ≠ t_url t → tracked t (entries s) → tracked t (entries (step u s).2).
Proof.
  intros Hne. unfold tracked.
  destruct (t_phase t) as [|rest k|e|[e|a]]; try done.
  - intros H Hf. destruct (H Hf) as (pre & Hpre & Hw). exists pre. split; [|done].
    rewrite step_frame; [done|]. by intros Heq; rewrite Heq in Hne.
  - intros H. rewrite step_frame; [done|]. by intros Heq; rewrite Heq in Hne.
Qed.

(** Run on its own for enough events, the task of a call ends as
    [storeUpload] does. *)
Lemma steps_piping f φ (rest : list string) (k : nat) (s : Storage) (n : nat) :
  (length rest + 2 ≤ n)%nat →
  steps new_URL n (mkTask f φ (Piping rest k)) s
  = match pipe (faults φ f) (new_URL (storedFileName_of φ f)) k rest s with
    | (Some e, s') =>
        (mkTask f φ (Settled (inl e)),
         sys_unlink (unlink_fails φ) (new_URL (storedFileName_of φ f)) s')
    | (None, s') =>
        match failure (FileUpload.createReadStream f) with
        | Some e =>
            (mkTask f φ (Settled (inl e)),
             sys_unlink (unlink_fails φ) (new_URL (storedFileName_of φ f)) s')
        | None => (mkTask f φ (Settled (inr (stored_args φ f))), s')
        end
    end.
Proof.
  assert (Hdone : ∀ m r s0, steps new_URL m (mkTask f φ (Settled r)) s0
                            = (mkTask f φ (Settled r), s0)).
  { induction m as [|m IHm]; intros r s0; [done|]. simpl. apply IHm. }
  revert k s n. induction rest as [|c rest IH]; intros k s n Hn.
  - destruct n as [|[|n]]; [simpl in Hn; lia..|]. simpl.
    unfold step at 1. cbn [t_phase t_file t_fate].
    destruct (failure (FileUpload.createReadStream f)); unfold to_phase; simpl.
    + apply Hdone.
    + destruct n; [done|]. apply (Hdone (S n)).
  - destruct n as [|n]; [simpl in Hn; lia|]. simpl in Hn.
    cbn [steps pipe]. unfold step at 1. cbn [t_phase t_file t_fate].
    destruct (write_fault (faults φ f) k); unfold to_phase; simpl.
    + destruct n as [|n]; [lia|]. simpl. apply Hdone.
    + apply IH. lia.
Qed.

Lemma steps_storeUpload φ f (s : Storage) (n : nat) :
  (length (chunks (FileUpload.createReadStream f)) + 3 ≤ n)%nat →
  steps new_URL n (launch φ f) s
  = (mkTask f φ (Settled (storeUpload new_URL φ f s).1),
     (storeUpload new_URL φ f s).2).
Proof.
  intros Hn. destruct n as [|n]; [lia|].
  unfold storeUpload, launch. cbn [steps]. unfold step at 1.
  cbn [t_phase t_file t_fate].
  destruct (throws φ (storedFileName_of φ f)); unfold to_phase;
    cbn [t_phase t_file t_fate].
  { clear Hn. induction n as [|n IHn]; [done|]. apply IHn. }
  destruct (open_fault (faults φ f)); cbn [t_phase t_file t_fate].
  - destruct n as [|n]; [lia|]. simpl.
    clear Hn. induction n as [|n IHn]; [done|]. apply IHn.
  - pose proof (length_delivered φ (FileUpload.createReadStream f)).
    rewrite steps_piping by lia. unfold t_url. cbn [t_file t_fate].
    destruct (pipe _ _ _ _ _) as [[e|] s1]; [done|].
    by destruct (failure _).
Qed.

End StepFacts.

(** ** Facts about the first version of [multipleUpload] *)

Lemma foldl_collect results acc :
  foldl collect acc results
  = (acc.1 ++ omap fulfilled results,
     acc.2 ++ (diagnostic <$> omap rejected results)).
Proof.
  revert acc. induction results as [|[e|a] results IH]; intros [l c]; simpl.
  - by rewrite !app_nil_r.
  - rewrite IH. simpl. by rewrite <- app_assoc.
  - rewrite IH. simpl. by rewrite <- app_assoc.
Qed.

Lemma Promise_allSettled_Some ts results :
  Promise_allSettled ts = Some results → results = eventual <$> ts.
Proof.
  unfold Promise_allSettled. rewrite mapM_Some.
  induction 1 as [|t r ts results Ht _ IH]; [done|].
  simpl. rewrite IH. f_equal.
  destruct (t_phase t) eqn:Hph; simplify_eq. symmetry. by apply settled_eventual.
Qed.

Lemma Promise_allSettled_is_Some ts :
  is_Some (Promise_allSettled ts) ↔ Forall (λ t, settled t = true) ts.
Proof.
  unfold Promise_allSettled. rewrite mapM_is_Some. apply Forall_proper; [|done].
  intros t. unfold settled. simpl. by destruct (t_phase t); split.
Qed.

Section AllSettledFacts.
Variable new_URL : string → string.

Local Abbreviation step := (step new_URL).
Local Abbreviation t_url := (t_url new_URL).
Local Abbreviation poolA := (poolA new_URL).
Local Abbreviation store_result := (job_result new_URL read_file).

Lemma runA_fmap {X : Type} (g : Task → X) sched p :
  (∀ t s, g (step t s).1 = g t) →
  g <$> (run step sched p).1 = g <$> p.1.
Proof.
  intros Hg. apply (run_invariant step (λ q, g <$> q.1 = g <$> p.1)); [|done].
  intros i q Hq. destruct (q.1 !! i) as [t|] eqn:Hi.
  - rewrite (tick_inside _ _ _ _ Hi). simpl.
    rewrite list_fmap_insert, Hg, list_insert_id; [done|].
    by rewrite list_lookup_fmap, Hi.
  - by rewrite tick_outside.
Qed.

Lemma poolA_eventual sched files w :
  eventual <$> (poolA sched files w).1 = store_result (storage w) <$> files.
Proof.
  unfold poolA. rewrite (runA_fmap eventual); [|apply step_eventual].
  simpl. rewrite <- list_fmap_compose. apply list_fmap_ext. intros _ j _. simpl.
  unfold job_result, read_file. by rewrite storeUpload_eventual.
Qed.

Lemma poolA_length sched files w : length (poolA sched files w).1 = length files.
Proof. unfold poolA. rewrite run_length. simpl. apply length_fmap. Qed.

(** Once every call is settled the resolver returns the values of the
    fulfilled ones and logs the reasons of the rejected ones, both in the
    order of [files]. *)
Lemma allSettled_returned sched files w :
  Forall (λ t, settled t = true) (poolA sched files w).1 →
  multipleUpload_allSettled new_URL sched files w
  = (Returned (omap fulfilled (store_result (storage w) <$> files)),
     {| console := console w
          ++ (diagnostic <$> omap rejected (store_result (storage w) <$> files));
        storage := (poolA sched files w).2 |}).
Proof.
  intros Hall. unfold multipleUpload_allSettled.
  apply Promise_allSettled_is_Some in Hall as [results Hres].
  rewrite Hres. apply Promise_allSettled_Some in Hres.
  rewrite poolA_eventual in Hres. subst results.
  by rewrite foldl_collect.
Qed.

Lemma allSettled_pending sched files w :
  ¬ Forall (λ t, settled t = true) (poolA sched files w).1 →
  multipleUpload_allSettled new_URL sched files w
  = (Pending, {| console := console w; storage := (poolA sched files w).2 |}).
Proof.
  intros Hnot. unfold multipleUpload_allSettled.
  destruct (Promise_allSettled _) as [results|] eqn:Hres; [|done].
  exfalso. apply Hnot, Promise_allSettled_is_Some. by eexists.
Qed.

Lemma poolA_app sched more files w :
  poolA (sched ++ more) files w = run step more (poolA sched files w).
Proof. unfold poolA. apply run_app. Qed.

Lemma allSettled_completable sched files w :
  ∃ more, Forall (λ t, settled t = true) (poolA (sched ++ more) files w).1.
Proof.
  destruct (completable step settled remaining (λ t s H, step_remaining new_URL t s H) (poolA sched files w))
    as [more Hmore].
  exists more. by rewrite poolA_app.
Qed.

End AllSettledFacts.

(** ** Facts about the second version of [multipleUpload] *)

Lemma omap_ext_in {A B : Type} (g h : A → option B) (l : list A) :
  (∀ x, x ∈ l → g x = h x) → omap g l = omap h l.
Proof.
  induction l as [|x l IH]; intros Hgh; [done|]. csimpl.
  rewrite (Hgh x) by apply list_elem_of_here.
  rewrite IH; [done|]. intros y Hy. apply Hgh. by apply list_elem_of_further.
Qed.

Lemma Promise_all_caught ts :
  Forall caught ts →
  Promise_all ts = if decide (Forall (λ t, finishedB t = true) ts)
                   then JoinFulfilled else JoinPending.
Proof.
  induction 1 as [|t ts Ht _ IH]; [done|]. simpl. rewrite IH.
  destruct t as [j|t|[e|[]]]; simpl.
  - by destruct (decide _).
  - by destruct (decide _).
  - by destruct (Ht e).
  - destruct (decide (Forall _ ts)) as [Hts|Hts];
      destruct (decide (Forall _ (_ :: ts))) as [Hd|Hd]; try done.
    + destruct Hd. by constructor.
    + by apply Forall_cons in Hd as [_ Hd].
Qed.

Section AllFacts.
Variable new_URL : string → string.

Local Abbreviation stepB := (stepB new_URL).
Local Abbreviation poolB := (poolB new_URL).
Local Abbreviation task_result := (job_result new_URL await_promise).

Lemma stepB_finished t r : finishedB t = true → stepB t r = (t, r).
Proof. by destruct t. Qed.

Lemma stepB_caught t r : caught t → caught (stepB t r).1.
Proof.
  intros Ht e. destruct t as [j|t|res]; simpl.
  - by destruct (promise (upload j)).
  - destruct (step new_URL t (disk_state r)) as [t' s'].
    by destruct (t_phase t') as [| | |[|]].
  - apply Ht.
Qed.

Lemma stepB_remaining t r :
  finishedB t = false → remainingB (stepB t r).1 < remainingB t.
Proof.
  destruct t as [j|t|res]; simpl; [| |done]; intros _.
  - destruct (promise (upload j)); simpl; unfold remaining; simpl; lia.
  - pose proof (step_remaining new_URL t (disk_state r)) as Hlt.
    pose proof (step_settled new_URL t (disk_state r)) as Hst.
    destruct (step new_URL t (disk_state r)) as [t' s']. simpl in *.
    destruct (t_phase t') as [| | |[|]] eqn:Hph; simpl; try lia.
    all: destruct (settled t) eqn:Hs;
      [specialize (Hst eq_refl); simplify_eq; unfold settled in Hs; by rewrite Hph in Hs
      |specialize (Hlt eq_refl); lia].
Qed.

(** What one event of a running task does to the array and to the console:
    when the task finishes with it, the value is pushed or the reason is
    logged; otherwise both are left alone and the task is bound to the same
    result as before. *)
Lemma stepB_trace t r :
  finishedB t = false →
  if finishedB (stepB t r).1
  then storedFileNames (stepB t r).2
         = storedFileNames r ++ option_list (eventualB t ≫= fulfilled)
       ∧ diagnostics (stepB t r).2
         = diagnostics r ++ (diagnostic <$> option_list (eventualB t ≫= rejected))
  else eventualB (stepB t r).1 = eventualB t
       ∧ storedFileNames (stepB t r).2 = storedFileNames r
       ∧ diagnostics (stepB t r).2 = diagnostics r.
Proof.
  destruct t as [j|t|res]; simpl; [| |done]; intros _.
  - destruct (promise (upload j)); simpl; [|done]. by rewrite app_nil_r.
  - pose proof (step_eventual new_URL t (disk_state r)) as Hev.
    destruct (step new_URL t (disk_state r)) as [t' s']. simpl in Hev.
    destruct (t_phase t') as [| | |[e|a]] eqn:Hph; simpl; rewrite <- ?Hev; try done.
    + rewrite (settled_eventual _ _ Hph). simpl. by rewrite app_nil_r.
    + rewrite (settled_eventual _ _ Hph). simpl. by rewrite app_nil_r.
Qed.

Local Abbreviation tickB := (tick stepB).
Local Abbreviation runB := (run stepB).
Local Abbreviation doneB := (completions stepB finishedB).

Lemma tickB_trace i p :
  storedFileNames (tickB i p).2
    = storedFileNames p.2
      ++ omap (λ k, bound_to p k ≫= fulfilled)
           (if negb (final_at finishedB i p) && final_at finishedB i (tickB i p)
            then [i] else [])
  ∧ diagnostics (tickB i p).2
    = diagnostics p.2
      ++ (diagnostic <$> omap (λ k, bound_to p k ≫= rejected)
           (if negb (final_at finishedB i p) && final_at finishedB i (tickB i p)
            then [i] else []))
  ∧ ∀ k, final_at finishedB k (tickB i p) = false →
         bound_to (tickB i p) k = bound_to p k.
Proof.
  unfold final_at, bound_to. destruct (p.1 !! i) as [t|] eqn:Hi.
  - rewrite (tick_lookup_eq stepB _ _ _ Hi).
    destruct (finishedB t) eqn:Hf.
    { rewrite (tick_final_task stepB finishedB stepB_finished _ _ _ Hi Hf).
      simpl. by rewrite !app_nil_r. }
    pose proof (stepB_trace t p.2 Hf) as Htr.
    rewrite (tick_inside _ _ _ _ Hi). cbn [fst snd negb andb].
    destruct (finishedB (stepB t p.2).1) eqn:Hf'.
    + destruct Htr as [Hst Hdi]. cbn [omap list_omap]. rewrite Hi. cbn [mbind option_bind].
      split; [|split].
      * rewrite Hst. f_equal; by destruct (eventualB t ≫= fulfilled).
      * rewrite Hdi. f_equal; by destruct (eventualB t ≫= rejected).
      * intros k. destruct (decide (i = k)) as [<-|Hne].
        -- rewrite list_lookup_insert_eq by (by eapply lookup_lt_Some). simpl. congruence.
        -- by rewrite list_lookup_insert_ne.
    + destruct Htr as (Hev & Hst & Hdi). simpl. rewrite !app_nil_r.
      split; [done|split; [done|]].
      intros k _. destruct (decide (i = k)) as [<-|Hne].
      * rewrite list_lookup_insert_eq by (by eapply lookup_lt_Some). simpl.
        by rewrite Hi.
      * by rewrite list_lookup_insert_ne.
  - rewrite tick_outside by done. rewrite Hi. simpl. by rewrite !app_nil_r.
Qed.

(** The array holds the values of the fulfilled calls and the console the
    reasons of the failed ones, both in the order in which the tasks
    finished. *)
Lemma runB_trace sched p :
  storedFileNames (runB sched p).2
    = storedFileNames p.2 ++ omap (λ k, bound_to p k ≫= fulfilled) (doneB sched p)
  ∧ diagnostics (runB sched p).2
    = diagnostics p.2
      ++ (diagnostic <$> omap (λ k, bound_to p k ≫= rejected) (doneB sched p)).
Proof.
  revert p. induction sched as [|i sched IH]; intros p.
  - simpl. by rewrite !app_nil_r.
  - rewrite run_cons. cbn [completions]. rewrite !omap_app.
    destruct (IH (tickB i p)) as [IHs IHd].
    destruct (tickB_trace i p) as (Hs & Hd & Hk).
    assert (Hext : ∀ (X : Type) (h : Error + FileArgs.t → option X),
              omap (λ k, bound_to (tickB i p) k ≫= h) (doneB sched (tickB i p))
              = omap (λ k, bound_to p k ≫= h) (doneB sched (tickB i p))).
    { intros X h. apply omap_ext_in. intros k Hin.
      apply (completions_elem stepB finishedB stepB_finished) in Hin as [Hn _].
      by rewrite (Hk k Hn). }
    rewrite IHs, IHd, Hs, Hd, !Hext. rewrite fmap_app, <- !app_assoc. done.
Qed.

End AllFacts.

(** ** The directory under a pool of calls *)

Lemma omap_lookup_seq {A B : Type} (g : A → option B) (l : list A) :
  omap (λ i, l !! i ≫= g) (seq 0 (length l)) = omap g l.
Proof.
  induction l as [|x l IH] using rev_ind; [done|].
  rewrite length_app, seq_app, !omap_app. simpl. f_equal.
  - rewrite <- IH. apply omap_ext_in. intros i [_ Hi]%elem_of_seq.
    by rewrite lookup_app_l by (simpl in Hi; lia).
  - rewrite lookup_app_r by lia. rewrite Nat.sub_diag. simpl. by destruct (g x).
Qed.

Section PoolStorage.
Variable new_URL : string → string.

Local Abbreviation step := (step new_URL).
Local Abbreviation t_url := (t_url new_URL).
Local Abbreviation tracked := (tracked new_URL).
Local Abbreviation poolA := (poolA new_URL).
Local Abbreviation target := (target new_URL).

Lemma poolA_frame sched files w p :
  (∀ j, j ∈ files → job_path new_URL read_file j ≠ Some p) →
  entries (poolA sched files w).2 !! p = entries (storage w) !! p.
Proof.
  intros Hfiles.
  assert (Hinv : Forall (λ t, t_url t ≠ p) (poolA sched files w).1
                 ∧ entries (poolA sched files w).2 !! p = entries (storage w) !! p);
    [|by destruct Hinv].
  apply (run_invariant step
           (λ q, Forall (λ t, t_url t ≠ p) q.1
                 ∧ entries q.2 !! p = entries (storage w) !! p)).
  - intros i q [Hq1 Hq2]. destruct (q.1 !! i) as [t|] eqn:Hi.
    + rewrite (tick_inside _ _ _ _ Hi). simpl.
      pose proof (Forall_lookup_1 _ _ _ _ Hq1 Hi) as Ht. split.
      * apply Forall_insert; [done|]. by rewrite step_url.
      * rewrite step_frame; [done|]. by intros ->.
    + by rewrite tick_outside.
  - simpl. split; [|done]. apply Forall_fmap, Forall_forall. intros j Hj Heq.
    apply (Hfiles j Hj). unfold job_path, read_file. by rewrite <- Heq.
Qed.

Lemma poolA_tracked sched files w i j :
  files !! i = Some j →
  (∀ k j', k ≠ i → files !! k = Some j' →
           job_path new_URL read_file j' ≠ job_path new_URL read_file j) →
  ∃ t, (poolA sched files w).1 !! i = Some t
       ∧ t_file t = file (upload j) ∧ t_fate t = fate j
       ∧ tracked t (entries (poolA sched files w).2).
Proof.
  intros Hi Hothers.
  set (P := λ q : list Task * Storage,
         (∃ t, q.1 !! i = Some t ∧ t_file t = file (upload j) ∧ t_fate t = fate j
               ∧ tracked t (entries q.2))
         ∧ ∀ k u, k ≠ i → q.1 !! k = Some u → t_url u ≠ target (fate j) (file (upload j))).
  assert (HP : P (poolA sched files w)); [|by destruct HP].
  apply (run_invariant step P).
  - intros i0 q [(t & Ht & Hf & Hφ & Htr) Hurls].
    assert (Hturl : t_url t = target (fate j) (file (upload j))).
    { unfold t_url, target. by rewrite Hf, Hφ. }
    destruct (decide (i0 = i)) as [->|Hne].
    + split.
      * exists (step t q.2).1. rewrite (tick_lookup_eq step _ _ _ Ht).
        rewrite step_file, step_fate. split; [done|]. split; [done|]. split; [done|].
        rewrite (tick_inside _ _ _ _ Ht). by apply step_tracked.
      * intros k u Hk. rewrite tick_lookup_ne by done. by apply Hurls.
    + split.
      * exists t. rewrite tick_lookup_ne by done. split; [done|]. split; [done|].
        split; [done|]. destruct (q.1 !! i0) as [u|] eqn:Hu.
        -- rewrite (tick_inside _ _ _ _ Hu). simpl.
           apply step_tracked_other; [|done]. rewrite Hturl. by eapply Hurls.
        -- by rewrite tick_outside.
      * intros k u Hk. destruct (decide (i0 = k)) as [->|Hne'].
        -- destruct (q.1 !! k) as [u0|] eqn:Hu0.
           ++ rewrite (tick_lookup_eq step _ _ _ Hu0). intros [= <-].
              rewrite step_url. by eapply Hurls.
           ++ rewrite tick_outside by done. by apply Hurls.
        -- rewrite tick_lookup_ne by done. by apply Hurls.
  - split.
    + exists (launch_job j). simpl. rewrite list_lookup_fmap, Hi. done.
    + intros k u Hk. simpl. rewrite list_lookup_fmap.
      destruct (files !! k) as [j'|] eqn:Hj'; [|done]. intros [= <-].
      intros Heq. apply (Hothers k j' Hk Hj'). unfold job_path, read_file.
      f_equal. exact Heq.
Qed.

Lemma poolA_stored sched files w i j a :
  Forall (λ t, settled t = true) (poolA sched files w).1 →
  files !! i = Some j →
  job_result new_URL read_file (storage w) j = inr a →
  (∀ k j', k ≠ i → files !! k = Some j' →
           job_path new_URL read_file j' ≠ job_path new_URL read_file j) →
  entries (poolA sched files w).2 !! target (fate j) (file (upload j))
  = Some (whole (file (upload j))).
Proof.
  intros Hall Hi Hres Hothers.
  destruct (poolA_tracked sched files w i j Hi Hothers) as (t & Ht & Hf & Hφ & Htr).
  pose proof (poolA_eventual new_URL sched files w) as Hev.
  apply (f_equal (λ l, l !! i)) in Hev. rewrite !list_lookup_fmap, Ht, Hi in Hev.
  simpl in Hev. injection Hev as Hev. rewrite Hres in Hev.
  pose proof (Forall_lookup_1 _ _ _ _ Hall Ht) as Hset.
  unfold settled in Hset. unfold tracked in Htr.
  destruct (t_phase t) as [| | |r] eqn:Hph; try done.
  rewrite (settled_eventual _ _ Hph) in Hev. subst r.
  unfold t_url in Htr. by rewrite Hf, Hφ in Htr.
Qed.

End PoolStorage.

(** ** The second version, from start to return *)

Section AllReturn.
Variable new_URL : string → string.

Local Abbreviation step := (step new_URL).
Local Abbreviation stepB := (stepB new_URL).
Local Abbreviation poolB := (poolB new_URL).
Local Abbreviation urlB := (urlB new_URL).
Local Abbreviation tracked := (tracked new_URL).
Local Abbreviation trackedB := (trackedB new_URL).
Local Abbreviation target := (target new_URL).
Local Abbreviation task_result := (job_result new_URL await_promise).

Lemma poolB_length sched files w : length (poolB sched files w).1 = length files.
Proof. unfold poolB. rewrite run_length. simpl. apply length_fmap. Qed.

Lemma poolB_app sched more files w :
  poolB (sched ++ more) files w = run stepB more (poolB sched files w).
Proof. unfold poolB. apply run_app. Qed.

Lemma poolB_caught sched files w : Forall caught (poolB sched files w).1.
Proof.
  apply (run_invariant stepB (λ q, Forall caught q.1)).
  - intros i q Hq. destruct (q.1 !! i) as [t|] eqn:Hi.
    + rewrite (tick_inside _ _ _ _ Hi). simpl.
      apply Forall_insert; [done|]. apply stepB_caught.
      by eapply (Forall_lookup_1 _ _ _ _ Hq).
    + by rewrite tick_outside.
  - simpl. apply Forall_fmap, Forall_forall. by intros j _ e.
Qed.

Lemma bound_to_start files w i :
  bound_to (startB files w) i ≫= fulfilled
  = files !! i ≫= λ j, fulfilled (task_result (storage w) j).
Proof.
  unfold bound_to. simpl. rewrite list_lookup_fmap.
  destruct (files !! i) as [j|]; [|done]. simpl.
  unfold job_result, await_promise. destruct (promise (upload j)); [done|].
  by rewrite storeUpload_eventual.
Qed.

Lemma bound_to_start_rejected files w i :
  bound_to (startB files w) i ≫= rejected
  = files !! i ≫= λ j, rejected (task_result (storage w) j).
Proof.
  unfold bound_to. simpl. rewrite list_lookup_fmap.
  destruct (files !! i) as [j|]; [|done]. simpl.
  unfold job_result, await_promise. destruct (promise (upload j)); [done|].
  by rewrite storeUpload_eventual.
Qed.

(** Once every task is finished the resolver returns the array, which holds
    the values of the fulfilled calls in the order the tasks finished; the
    console got the reasons of the failed ones in that order too. *)
Lemma all_returned sched files w :
  Forall (λ t, finishedB t = true) (poolB sched files w).1 →
  multipleUpload_all new_URL sched files w
  = (Returned (omap (λ i, files !! i ≫= λ j, fulfilled (task_result (storage w) j))
                 (finish_order new_URL sched files w)),
     {| console := console w
          ++ (diagnostic <$>
                omap (λ i, files !! i ≫= λ j, rejected (task_result (storage w) j))
                  (finish_order new_URL sched files w));
        storage := disk_state (poolB sched files w).2 |}).
Proof.
  intros Hall. unfold multipleUpload_all.
  rewrite (Promise_all_caught _ (poolB_caught sched files w)).
  rewrite decide_True by done.
  destruct (runB_trace new_URL sched (startB files w)) as [Hs Hd].
  unfold poolB. rewrite Hs, Hd. simpl. unfold finish_order.
  f_equal; [f_equal|f_equal; f_equal; f_equal].
  - apply omap_ext_in. intros i _. apply bound_to_start.
  - apply omap_ext_in. intros i _. apply bound_to_start_rejected.
Qed.

Lemma all_pending sched files w :
  ¬ Forall (λ t, finishedB t = true) (poolB sched files w).1 →
  (multipleUpload_all new_URL sched files w).1 = Pending.
Proof.
  intros Hnot. unfold multipleUpload_all.
  rewrite (Promise_all_caught _ (poolB_caught sched files w)).
  by rewrite decide_False by done.
Qed.

Lemma all_completable sched files w :
  ∃ more, Forall (λ t, finishedB t = true) (poolB (sched ++ more) files w).1.
Proof.
  destruct (completable stepB finishedB remainingB
              (λ t r H, stepB_remaining new_URL t r H) (poolB sched files w))
    as [more Hmore].
  exists more. by rewrite poolB_app.
Qed.

(** When all tasks are finished, each index finished exactly once. *)
Lemma finish_order_all sched files w :
  Forall (λ t, finishedB t = true) (poolB sched files w).1 →
  finish_order new_URL sched files w ≡ₚ seq 0 (length files).
Proof.
  intros Hall. unfold finish_order.
  rewrite (completions_all stepB finishedB (stepB_finished new_URL) sched (startB files w)).
  - simpl. by rewrite length_fmap.
  - simpl. apply Forall_fmap, Forall_forall. by intros j _.
  - exact Hall.
Qed.

Lemma stepB_frame t r p :
  urlB t ≠ Some p →
  entries (disk_state (stepB t r).2) !! p = entries (disk_state r) !! p.
Proof.
  destruct t as [j|t|res]; simpl; [| |done].
  - by destruct (promise (upload j)).
  - intros Hne. pose proof (step_frame new_URL t (disk_state r) p) as Hfr.
    destruct (step t (disk_state r)) as [t' s']. simpl in Hfr.
    rewrite <- Hfr by (by intros ->).
    by destruct (t_phase t') as [| | |[|]].
Qed.

Lemma stepB_url t r p : urlB t ≠ Some p → urlB (stepB t r).1 ≠ Some p.
Proof.
  destruct t as [j|t|res]; simpl; [| |done].
  - unfold job_path. by destruct (promise (upload j)).
  - intros Hne. pose proof (step_url new_URL t (disk_state r)) as Hu.
    destruct (step t (disk_state r)) as [t' s']. simpl in Hu.
    destruct (t_phase t') as [| | |[|]]; simpl; try done; by rewrite Hu.
Qed.

Lemma poolB_frame sched files w p :
  (∀ j, j ∈ files → job_path new_URL await_promise j ≠ Some p) →
  entries (disk_state (poolB sched files w).2) !! p = entries (storage w) !! p.
Proof.
  intros Hfiles.
  assert (Hinv : Forall (λ t, urlB t ≠ Some p) (poolB sched files w).1
                 ∧ entries (disk_state (poolB sched files w).2) !! p
                   = entries (storage w) !! p);
    [|by destruct Hinv].
  apply (run_invariant stepB
           (λ q, Forall (λ t, urlB t ≠ Some p) q.1
                 ∧ entries (disk_state q.2) !! p = entries (storage w) !! p)).
  - intros i q [Hq1 Hq2]. destruct (q.1 !! i) as [t|] eqn:Hi.
    + rewrite (tick_inside _ _ _ _ Hi). simpl.
      pose proof (Forall_lookup_1 _ _ _ _ Hq1 Hi) as Ht. split.
      * apply Forall_insert; [done|]. by apply stepB_url.
      * by rewrite stepB_frame.
    + by rewrite tick_outside.
  - simpl. split; [|done]. apply Forall_fmap, Forall_forall. intros j Hj.
    apply (Hfiles j Hj).
Qed.

End AllReturn.

Section AllStorage.
Variable new_URL : string → string.

Local Abbreviation step := (step new_URL).
Local Abbreviation stepB := (stepB new_URL).
Local Abbreviation poolB := (poolB new_URL).
Local Abbreviation urlB := (urlB new_URL).
Local Abbreviation t_url := (t_url new_URL).
Local Abbreviation tracked := (tracked new_URL).
Local Abbreviation trackedB := (trackedB new_URL).
Local Abbreviation target := (target new_URL).
Local Abbreviation pathB := (job_path new_URL await_promise).

Lemma tracked_frame t (m m' : gmap string string) :
  m' !! t_url t = m !! t_url t → tracked t m → tracked t m'.
Proof.
  intros Hm. unfold tracked.
  destruct (t_phase t) as [|rest k|e|[e|a]]; try done; by rewrite Hm.
Qed.

Lemma trackedB_frame j t (m m' : gmap string string) :
  (∀ p, pathB j = Some p → m' !! p = m !! p) →
  trackedB j t m → trackedB j t m'.
Proof.
  intros Hm. destruct t as [j'|t|res]; simpl; [done| |].
  - intros (Hp & Hφ & Hev & Htr). split; [done|]. split; [done|]. split; [done|].
    apply (tracked_frame t m); [|done]. apply Hm.
    unfold job_path, await_promise. rewrite Hp.
    unfold t_url, target. by rewrite Hφ.
  - intros H f a Hp Hev. rewrite Hm; [by eapply H|].
    unfold job_path, await_promise. by rewrite Hp.
Qed.

Lemma stepB_tracked j t r :
  trackedB j t (entries (disk_state r)) →
  trackedB j (stepB t r).1 (entries (disk_state (stepB t r).2)).
Proof.
  destruct t as [j'|t|res]; simpl; [| |done].
  - intros ->. destruct (promise (upload j)) as [e|f] eqn:Hp; simpl; rewrite Hp; [done|].
    repeat split; done.
  - intros (Hp & Hφ & Hev & Htr).
    pose proof (step_tracked new_URL t (disk_state r) Htr) as Htr'.
    pose proof (step_file new_URL t (disk_state r)) as Hf'.
    pose proof (step_fate new_URL t (disk_state r)) as Hφ'.
    pose proof (step_eventual new_URL t (disk_state r)) as Hev'.
    destruct (step t (disk_state r)) as [t' s']. simpl in *.
    destruct (t_phase t') as [| | |[e|a]] eqn:Hph; simpl.
    + rewrite Hf', Hφ', Hev'. repeat split; done.
    + rewrite Hf', Hφ', Hev'. repeat split; done.
    + rewrite Hf', Hφ', Hev'. repeat split; done.
    + intros f a Hpf Hok. rewrite Hp in Hpf. injection Hpf as <-.
      rewrite <- Hev, <- Hev', (settled_eventual _ _ Hph) in Hok. done.
    + intros f a0 Hpf Hok. rewrite Hp in Hpf. injection Hpf as <-.
      unfold tracked in Htr'. rewrite Hph in Htr'.
      unfold t_url in Htr'. by rewrite Hf', Hφ', Hφ in Htr'.
Qed.

Lemma poolB_tracked sched files w i j :
  files !! i = Some j →
  (∀ k j', k ≠ i → files !! k = Some j' → pathB j' ≠ pathB j) →
  ∃ t, (poolB sched files w).1 !! i = Some t
       ∧ trackedB j t (entries (disk_state (poolB sched files w).2)).
Proof.
  intros Hi Hothers.
  set (P := λ q : list TaskB * Resolver,
         (∃ t, q.1 !! i = Some t ∧ trackedB j t (entries (disk_state q.2)))
         ∧ ∀ k u p, k ≠ i → q.1 !! k = Some u → pathB j = Some p → urlB u ≠ Some p).
  assert (HP : P (poolB sched files w)); [|by destruct HP].
  apply (run_invariant stepB P).
  - intros i0 q [(t & Ht & Htr) Hurls].
    destruct (decide (i0 = i)) as [->|Hne].
    + split.
      * exists (stepB t q.2).1. rewrite (tick_lookup_eq stepB _ _ _ Ht).
        split; [done|]. rewrite (tick_inside _ _ _ _ Ht). by apply stepB_tracked.
      * intros k u p Hk. rewrite tick_lookup_ne by done. by apply Hurls.
    + split.
      * exists t. rewrite tick_lookup_ne by done. split; [done|].
        destruct (q.1 !! i0) as [u|] eqn:Hu.
        -- rewrite (tick_inside _ _ _ _ Hu). simpl.
           apply (trackedB_frame j t (entries (disk_state q.2))); [|done].
           intros p Hp. apply stepB_frame. by eapply Hurls.
        -- by rewrite tick_outside.
      * intros k u p Hk. destruct (decide (i0 = k)) as [->|Hne'].
        -- destruct (q.1 !! k) as [u0|] eqn:Hu0.
           ++ rewrite (tick_lookup_eq stepB _ _ _ Hu0). intros [= <-] Hp.
              apply stepB_url. by eapply Hurls.
           ++ rewrite tick_outside by done. by apply Hurls.
        -- rewrite tick_lookup_ne by done. by apply Hurls.
  - split.
    + exists (Awaiting j). simpl. by rewrite list_lookup_fmap, Hi.
    + intros k u p Hk. simpl. rewrite list_lookup_fmap.
      destruct (files !! k) as [j'|] eqn:Hj'; [|done]. intros [= <-] Hp. simpl.
      rewrite <- Hp. by apply (Hothers k j' Hk Hj').
Qed.

Lemma poolB_stored sched files w i j f a :
  Forall (λ t, finishedB t = true) (poolB sched files w).1 →
  files !! i = Some j →
  await_promise j = inr f →
  job_result new_URL await_promise (storage w) j = inr a →
  (∀ k j', k ≠ i → files !! k = Some j' → pathB j' ≠ pathB j) →
  entries (disk_state (poolB sched files w).2) !! target (fate j) f = Some (whole f).
Proof.
  intros Hall Hi Hp Hres Hothers.
  destruct (poolB_tracked sched files w i j Hi Hothers) as (t & Ht & Htr).
  pose proof (Forall_lookup_1 _ _ _ _ Hall Ht) as Hfin.
  destruct t as [|?|res]; try done. simpl in Htr.
  apply (Htr f a Hp). unfold job_result in Hres. rewrite Hp in Hres.
  by rewrite <- (storeUpload_eventual new_URL (fate j) f (storage w)).
Qed.

End AllStorage.

(** ** The claims about [multipleUpload] *)

Section BatchClaims.
Variable new_URL : string → string.

Local Abbreviation multipleUploadA := (multipleUpload_allSettled new_URL).
Local Abbreviation multipleUploadB := (multipleUpload_all new_URL).
Local Abbreviation poolA := (poolA new_URL).
Local Abbreviation poolB := (poolB new_URL).

Lemma allSettled_cases sched files w :
  (Forall (λ t, settled t = true) (poolA sched files w).1
   ∧ multipleUploadA sched files w
     = (Returned (omap fulfilled (results_of new_URL read_file files w)),
        {| console := console w
             ++ (diagnostic <$> omap rejected (results_of new_URL read_file files w));
           storage := (poolA sched files w).2 |}))
  ∨ (¬ Forall (λ t, settled t = true) (poolA sched files w).1
     ∧ multipleUploadA sched files w
       = (Pending, {| console := console w; storage := (poolA sched files w).2 |})).
Proof.
  destruct (decide (Forall (λ t, settled t = true) (poolA sched files w).1)) as [H|H].
  - left. split; [done|]. by apply allSettled_returned.
  - right. split; [done|]. by apply allSettled_pending.
Qed.

Lemma all_cases sched files w :
  (Forall (λ t, finishedB t = true) (poolB sched files w).1
   ∧ multipleUploadB sched files w
     = (Returned (in_order new_URL await_promise files w (finish_order new_URL sched files w)),
        {| console := console w
             ++ (diagnostic <$>
                   omap (λ i, files !! i ≫= λ j,
                           rejected (job_result new_URL await_promise (storage w) j))
                     (finish_order new_URL sched files w));
           storage := disk_state (poolB sched files w).2 |}))
  ∨ (¬ Forall (λ t, finishedB t = true) (poolB sched files w).1
     ∧ (multipleUploadB sched files w).1 = Pending).
Proof.
  destruct (decide (Forall (λ t, finishedB t = true) (poolB sched files w).1)) as [H|H].
  - left. split; [done|]. by apply all_returned.
  - right. split; [done|]. by apply all_pending.
Qed.

Lemma in_finish_order {X : Type} (h : Error + FileArgs.t → option X) sched files w :
  Forall (λ t, finishedB t = true) (poolB sched files w).1 →
  omap (λ i, files !! i ≫= λ j, h (job_result new_URL await_promise (storage w) j))
    (finish_order new_URL sched files w)
  ≡ₚ omap h (results_of new_URL await_promise files w).
Proof.
  intros Hall. rewrite (finish_order_all new_URL sched files w Hall).
  unfold results_of.
  rewrite (omap_lookup_seq (λ j, h (job_result new_URL await_promise (storage w) j)) files).
  clear. induction files as [|j files IH]; [done|]. csimpl.
  destruct (h _); by rewrite IH.
Qed.

Lemma omap_fulfilled_all_fail (rs : list (Error + FileArgs.t)) :
  Forall (λ r, ∃ e, r = inl e) rs → omap fulfilled rs = [].
Proof. induction 1 as [|r rs [e ->] _ IH]; [done|]. csimpl. exact IH. Qed.

Lemma allSettled_tolerates :
  tolerates_partial_failure new_URL multipleUploadA read_file.
Proof.
  repeat split.
  - intros sched files w e.
    by destruct (allSettled_cases sched files w) as [[_ ->]|[_ ->]].
  - intros sched files w. destruct (allSettled_completable new_URL sched files w) as [more H].
    exists more. eexists. by rewrite (allSettled_returned new_URL _ _ _ H).
  - intros sched files w value w'.
    destruct (allSettled_cases sched files w) as [[_ ->]|[_ ->]]; [|done].
    by intros [= <- <-].
  - intros sched files w value w'.
    destruct (allSettled_cases sched files w) as [[_ ->]|[_ ->]]; [|done].
    intros [= <- <-]. by eexists.
  - intros sched files w value w'.
    destruct (allSettled_cases sched files w) as [[_ ->]|[_ ->]]; [|done].
    intros [= <- <-] Hfail. apply omap_fulfilled_all_fail.
    unfold results_of. by apply Forall_fmap.
  - intros sched files w value w' i j f a.
    destruct (allSettled_cases sched files w) as [[Hall ->]|[_ ->]]; [|done].
    intros [= <- <-] Hi [= <-] Hres Hothers. simpl.
    by apply (poolA_stored new_URL sched files w i j a).
Qed.

Lemma all_tolerates :
  tolerates_partial_failure new_URL multipleUploadB await_promise.
Proof.
  repeat split.
  - intros sched files w e.
    destruct (all_cases sched files w) as [[_ ->]|[_ H]]; [done|]. by rewrite H.
  - intros sched files w. destruct (all_completable new_URL sched files w) as [more H].
    exists more. eexists. by rewrite (all_returned new_URL _ _ _ H).
  - intros sched files w value w'.
    destruct (all_cases sched files w) as [[Hall ->]|[_ H]].
    + intros [= <- <-]. by apply in_finish_order.
    + intros Heq. by rewrite Heq in H.
  - intros sched files w value w'.
    destruct (all_cases sched files w) as [[Hall ->]|[_ H]].
    + intros [= <- <-]. eexists. split; [done|].
      rewrite (in_finish_order rejected) by done. done.
    + intros Heq. by rewrite Heq in H.
  - intros sched files w value w'.
    destruct (all_cases sched files w) as [[Hall ->]|[_ H]].
    + intros [= <- <-] Hfail. apply Permutation_nil_r. unfold in_order.
      rewrite (in_finish_order fulfilled) by done.
      rewrite omap_fulfilled_all_fail; [done|].
      unfold results_of. by apply Forall_fmap.
    + intros Heq. by rewrite Heq in H.
  - intros sched files w value w' i j f a.
    destruct (all_cases sched files w) as [[Hall ->]|[_ H]].
    + intros [= <- <-] Hi Hp Hres Hothers. simpl.
      by apply (poolB_stored new_URL sched files w i j f a).
    + intros Heq. by rewrite Heq in H.
Qed.

End BatchClaims.

Section BatchTheorems.
Variable new_URL : string → string.

Local Abbreviation multipleUploadA := (multipleUpload_allSettled new_URL).
Local Abbreviation multipleUploadB := (multipleUpload_all new_URL).
Local Abbreviation poolA := (poolA new_URL).
Local Abbreviation poolB := (poolB new_URL).

(** C1: in both versions [multipleUpload] never throws and can always be
    brought to return; what it returns is, up to order, the values of the
    calls that were fulfilled, each failed call having its reason logged and
    its entry left out; when every call fails it returns the empty list; and
    a fulfilled call keeps its whole upload in the directory whatever
    happened to the other calls. *)
Theorem multipleUpload_tolerates_partial_failure :
  tolerates_partial_failure new_URL multipleUploadA read_file
  ∧ tolerates_partial_failure new_URL multipleUploadB await_promise.
Proof. split; [apply allSettled_tolerates|apply all_tolerates]. Qed.

(** C5, as amended: the version over [Promise.all] returns the stored files
    in the order in which the tasks finished; the version over
    [Promise.allSettled] returns them in the order of its input. *)
Theorem multipleUpload_result_order :
  returns_in_completion_order new_URL multipleUploadB await_promise (finish_order new_URL)
  ∧ returns_in_input_order new_URL multipleUploadA read_file.
Proof.
  split.
  - intros sched files w value w'.
    destruct (all_cases new_URL sched files w) as [[Hall ->]|[_ H]].
    + by intros [= <- <-].
    + intros Heq. by rewrite Heq in H.
  - intros sched files w value w'.
    destruct (allSettled_cases new_URL sched files w) as [[_ ->]|[_ ->]]; [|done].
    by intros [= <- <-].
Qed.

Lemma run_no_tasks {T W : Type} (advance : T → W → T * W) sched (w : W) :
  run advance sched ([], w) = ([], w).
Proof. induction sched as [|i sched IH]; [done|]. by rewrite run_cons. Qed.

(** C6: on the empty list both versions return the empty list, whatever the
    schedule, with no task in the pool, no file-system call made and nothing
    logged: the world is the one they were given. *)
Theorem multipleUpload_no_files sched w :
  multipleUploadA sched [] w = (Returned [], w)
  ∧ poolA sched [] w = ([], storage w)
  ∧ multipleUploadB sched [] w = (Returned [], w)
  ∧ (poolB sched [] w).1 = [].
Proof.
  assert (HA : poolA sched [] w = ([], storage w)) by apply run_no_tasks.
  assert (HB : poolB sched [] w = startB [] w) by apply run_no_tasks.
  repeat split; [|done| |by rewrite HB].
  - unfold multipleUpload_allSettled. fold (poolA sched [] w). rewrite HA.
    by destruct w.
  - unfold multipleUpload_all. fold (poolB sched [] w). rewrite HB.
    by destruct w.
Qed.

Lemma allSettled_full_join : full_join multipleUploadA poolA settled.
Proof.
  intros sched files w. split; [apply poolA_length|].
  destruct (allSettled_cases new_URL sched files w) as [[Hall ->]|[Hnot ->]]; simpl.
  - split; [split; [done|by eexists]|]. split; [done|]. by intros [].
  - split; [|done]. split; [by intros [? ?]|done].
Qed.

Lemma all_full_join : full_join multipleUploadB poolB finishedB.
Proof.
  intros sched files w. split; [apply poolB_length|].
  destruct (all_cases new_URL sched files w) as [[Hall ->]|[Hnot ->]]; simpl.
  - split; [split; [done|by eexists]|]. split; [done|]. by intros [].
  - split; [|done]. split; [by intros [? ?]|done].
Qed.

(** C7: in both versions every call of the batch is in the pool, none of
    them final, before the first event is served; the result is there
    exactly when every task has become final, the resolver being pending
    until then and never throwing; and from any point the tasks can all be
    brought to a final state. *)
Theorem multipleUpload_waits_for_all :
  (full_join multipleUploadA poolA settled
   ∧ never_throws multipleUploadA ∧ can_always_return multipleUploadA
   ∧ ∀ files w, poolA [] files w = startA files w
                ∧ Forall (λ t, settled t = false) (startA files w).1)
  ∧ (full_join multipleUploadB poolB finishedB
     ∧ never_throws multipleUploadB ∧ can_always_return multipleUploadB
     ∧ ∀ files w, poolB [] files w = startB files w
                  ∧ Forall (λ t, finishedB t = false) (startB files w).1).
Proof.
  split.
  - split; [apply allSettled_full_join|].
    destruct (allSettled_tolerates new_URL) as (Hn & Hc & _).
    split; [done|]. split; [done|]. intros files w. split; [done|].
    simpl. apply Forall_fmap, Forall_forall. by intros j _.
  - split; [apply all_full_join|].
    destruct (all_tolerates new_URL) as (Hn & Hc & _).
    split; [done|]. split; [done|]. intros files w. split; [done|].
    simpl. apply Forall_fmap, Forall_forall. by intros j _.
Qed.

Lemma coherent_fulfilled (s : Storage) j :
  coherent (upload j) → same_outcome new_URL s j →
  fulfilled (job_result new_URL read_file s j)
  = fulfilled (job_result new_URL await_promise s j).
Proof.
  unfold coherent, same_outcome, job_result, read_file, await_promise.
  destruct (promise (upload j)) as [e|f]; [|by intros ->].
  destruct ((storeUpload new_URL (fate j) (file (upload j)) s).1) as [e'|a];
    simpl; [done|].
  intros _ [H _]. by destruct H as [? [=]].
Qed.

Lemma omap_failed_handles read files w :
  omap rejected (results_of new_URL read (failed_handles new_URL read (storage w) files) w)
  = omap rejected (results_of new_URL read files w)
  ∧ length (omap rejected (results_of new_URL read files w))
    = length (failed_handles new_URL read (storage w) files).
Proof.
  unfold results_of, failed_handles.
  induction files as [|j files [IH1 IH2]]; [done|].
  rewrite filter_cons.
  destruct (decide (is_Some (rejected (job_result new_URL read (storage w) j))))
    as [[e He]|Hn]; csimpl.
  - rewrite He. simpl. by rewrite IH1, IH2.
  - destruct (rejected (job_result new_URL read (storage w) j)) eqn:Hr.
    + destruct Hn. by eexists.
    + done.
Qed.

(** C10: take handles that are coherent (the promise of each resolves with
    the object in its [file] field) and whose calls succeed in one version
    exactly when they succeed in the other, whatever the errors of the
    failures are. When both versions have returned, each under its own
    schedule, they have returned the same stored files up to order, the
    handles that failed are the same in both, and each version has logged
    one diagnostic for each of them. *)
Theorem multipleUpload_versions_agree schedA schedB files w valueA wA valueB wB :
  Forall (λ j, coherent (upload j) ∧ same_outcome new_URL (storage w) j) files →
  multipleUploadA schedA files w = (Returned valueA, wA) →
  multipleUploadB schedB files w = (Returned valueB, wB) →
  valueA ≡ₚ valueB
  ∧ failed_handles new_URL read_file (storage w) files
    = failed_handles new_URL await_promise (storage w) files
  ∧ ∃ loggedA loggedB,
      console wA = console w ++ loggedA ∧ console wB = console w ++ loggedB
      ∧ loggedA
        = diagnostic <$> omap rejected
            (results_of new_URL read_file
               (failed_handles new_URL read_file (storage w) files) w)
      ∧ loggedB
        ≡ₚ diagnostic <$> omap rejected
             (results_of new_URL await_promise
                (failed_handles new_URL await_promise (storage w) files) w)
      ∧ length loggedA = length (failed_handles new_URL read_file (storage w) files)
      ∧ length loggedB = length (failed_handles new_URL await_promise (storage w) files).
Proof.
  intros Hsame HA HB.
  assert (Hful : omap fulfilled (results_of new_URL read_file files w)
                 = omap fulfilled (results_of new_URL await_promise files w)).
  { clear HA HB. unfold results_of. induction Hsame as [|j l [Hc Ho] _ IH]; [done|].
    csimpl. by rewrite (coherent_fulfilled _ _ Hc Ho), IH. }
  assert (Hfailed : failed_handles new_URL read_file (storage w) files
                    = failed_handles new_URL await_promise (storage w) files).
  { clear HA HB Hful. unfold failed_handles. induction Hsame as [|j l [Hc Ho] _ IH]; [done|].
    rewrite !filter_cons, IH.
    pose proof (coherent_fulfilled _ _ Hc Ho) as Hj.
    destruct (decide (is_Some (rejected (job_result new_URL read_file (storage w) j))))
      as [HA|HA],
      (decide (is_Some (rejected (job_result new_URL await_promise (storage w) j))))
      as [HB|HB]; try done.
    - destruct HB. destruct HA as [e He].
      destruct (job_result new_URL read_file (storage w) j),
               (job_result new_URL await_promise (storage w) j);
        try done; by eexists.
    - destruct HA. destruct HB as [e He].
      destruct (job_result new_URL read_file (storage w) j),
               (job_result new_URL await_promise (storage w) j);
        try done; by eexists. }
  destruct (omap_failed_handles read_file files w) as [HfA HlA].
  destruct (omap_failed_handles await_promise files w) as [HfB HlB].
  destruct (allSettled_cases new_URL schedA files w) as [[_ HA']|[_ HA']];
    rewrite HA' in HA; [|done]. injection HA as <- <-.
  destruct (all_cases new_URL schedB files w) as [[Hall HB']|[_ HB']];
    [rewrite HB' in HB|by rewrite HB in HB']. injection HB as <- <-.
  split; [|split; [done|]].
  - rewrite Hful. symmetry. by apply in_finish_order.
  - pose proof (in_finish_order new_URL rejected schedB files w Hall) as Hperm.
    eexists _, _. split; [done|]. split; [done|].
    split; [by rewrite HfA|]. split; [by rewrite HfB, Hperm|].
    split; [by rewrite length_fmap, HlA|].
    by rewrite length_fmap, Hperm, HlB.
Qed.

End BatchTheorems.

(** ** The claims about the directory *)

(** C8: [uploads] returns the name of every entry of the directory, each
    once, in the order of the underlying enumeration, nothing left out and
    nothing added; it fails exactly when the directory is unreadable, with
    the error of that one [readdir] call, which is the only call it makes. *)
Theorem uploads_lists_the_directory w :
  (∀ e, (uploads w).1 = inl e ↔ unreadable (storage w) = Some e)
  ∧ (∀ names, (uploads w).1 = inr names →
       names = (map_to_list (entries (storage w))).*1
       ∧ NoDup names
       ∧ ∀ name, name ∈ names ↔ is_Some (entries (storage w) !! name))
  ∧ (unreadable (storage w) = None → ∃ names, (uploads w).1 = inr names)
  ∧ calls (storage (uploads w).2) = calls (storage w) ++ [SysReaddir]
  ∧ entries (storage (uploads w).2) = entries (storage w)
  ∧ console (uploads w).2 = console w.
Proof.
  unfold uploads, readdir.
  destruct (unreadable (storage w)) as [e0|] eqn:Hu; simpl.
  - repeat split; try done; try (by intros [= ->]).
  - repeat split; try done; simplify_eq; try done.
    + apply NoDup_fst_map_to_list.
    + rewrite list_elem_of_fmap. intros ([k v] & -> & Hin).
      apply elem_of_map_to_list in Hin. by eexists.
    + intros [v Hv]. rewrite list_elem_of_fmap. exists (name, v).
      split; [done|]. by apply elem_of_map_to_list.
    + intros _. by eexists.
Qed.

Lemma uploads_lists_the_directory_entries w :
  entries (storage (uploads w).2) = entries (storage w).
Proof. unfold uploads, readdir. by destruct (unreadable (storage w)). Qed.

Section DirectoryClaims.
Variable new_URL : string → string.

Local Abbreviation multipleUploadA := (multipleUpload_allSettled new_URL).
Local Abbreviation multipleUploadB := (multipleUpload_all new_URL).
Local Abbreviation storeUpload := (storeUpload new_URL).
Local Abbreviation target := (target new_URL).

Lemma allSettled_leaves_other_entries :
  leaves_other_entries new_URL multipleUploadA read_file.
Proof.
  intros sched files w p Hp.
  destruct (allSettled_cases new_URL sched files w) as [[_ ->]|[_ ->]]; simpl;
    by apply poolA_frame.
Qed.

Lemma all_leaves_other_entries :
  leaves_other_entries new_URL multipleUploadB await_promise.
Proof.
  intros sched files w p Hp. unfold multipleUpload_all.
  destruct (Promise_all _); simpl; by apply poolB_frame.
Qed.

(** C9, as amended: a call of [storeUpload] changes no entry but its
    target. Provided the target is a new name: a successful call creates
    exactly one file there, holding the whole upload; a failed call whose
    [unlink] works leaves the directory as it was; and, whether the call
    succeeds or fails, every entry that existed is kept as it was. (An entry
    that already has the name of the target is not protected: it is the one
    entry the call may replace or remove.) [multipleUpload], in both
    versions, leaves every entry that is not the target of one of its calls
    as it was, and [uploads] changes no entry. *)
Theorem storage_changes_only_at_targets :
  (∀ φ f s p, p ≠ target φ f → entries (storeUpload φ f s).2 !! p = entries s !! p)
  ∧ (∀ φ f s, entries s !! target φ f = None →
       (∀ a s', storeUpload φ f s = (inr a, s') →
                entries s' = <[target φ f := whole f]> (entries s)
                ∧ size (entries s') = S (size (entries s)))
       ∧ (∀ e s', storeUpload φ f s = (inl e, s') → unlink_fails φ = false →
                  entries s' = entries s)
       ∧ entries s ⊆ entries (storeUpload φ f s).2)
  ∧ leaves_other_entries new_URL multipleUploadA read_file
  ∧ leaves_other_entries new_URL multipleUploadB await_promise
  ∧ (∀ w, entries (storage (uploads w).2) = entries (storage w)).
Proof.
  split; [intros; by apply storeUpload_frame|].
  split; [|split; [apply allSettled_leaves_other_entries|
           split; [apply all_leaves_other_entries|apply uploads_lists_the_directory_entries]]].
  intros φ f s Hfresh. split; [|split].
  - intros a s' Hs. rewrite (storeUpload_success_content _ _ _ _ _ _ Hs).
    split; [done|]. by apply map_size_insert_None.
  - intros e s' Hs Hu. by apply (storeUpload_failure_fresh new_URL φ f s e s').
  - apply map_subseteq_spec. intros p c Hp.
    rewrite storeUpload_frame; [done|]. intros ->. by rewrite Hfresh in Hp.
Qed.

End DirectoryClaims.

(** ** The claims at work on sample batches *)

Lemma multipleUpload_tolerates_partial_failure_witness :
  multipleUpload_all uploads_dir in_turn [job_react; job_broken] quiet
    = (Returned [stored_args (lucky "a1") react_png],
       (multipleUpload_all uploads_dir in_turn [job_react; job_broken] quiet).2)
  ∧ [stored_args (lucky "a1") react_png]
      ≡ₚ omap fulfilled (results_of uploads_dir await_promise [job_react; job_broken] quiet)
  ∧ entries (storage (multipleUpload_all uploads_dir in_turn
                        [job_react; job_broken] quiet).2)
      !! target uploads_dir (lucky "a1") react_png = Some (whole react_png).
Proof.
  assert (Hrun : multipleUpload_all uploads_dir in_turn [job_react; job_broken] quiet
                 = (Returned [stored_args (lucky "a1") react_png],
                    (multipleUpload_all uploads_dir in_turn
                       [job_react; job_broken] quiet).2))
    by (vm_compute; reflexivity).
  destruct (multipleUpload_tolerates_partial_failure uploads_dir)
    as [_ (_ & _ & Hret & _ & _ & Hkeep)].
  split; [exact Hrun|]. split; [exact (Hret _ _ _ _ _ Hrun)|].
  apply (Hkeep in_turn [job_react; job_broken] quiet _ _ 0 job_react react_png
           (stored_args (lucky "a1") react_png) Hrun);
    [reflexivity|reflexivity|vm_compute; reflexivity|].
  intros [|[|k]] j' Hk Hj'; [done| |done].
  injection Hj' as <-. vm_compute. discriminate.
Defined.

(** C5, as stated, fails for the version over [Promise.allSettled]: the
    second call settles first, and the result is still in input order. *)
Lemma allSettled_ignores_completion_order :
  settle_order uploads_dir last_first [job_react; job_sql] quiet = [1; 0]
  ∧ (multipleUpload_allSettled uploads_dir last_first [job_react; job_sql] quiet).1
    = Returned [stored_args (lucky "a1") react_png; stored_args (lucky "c3") sql_png]
  ∧ ¬ returns_in_completion_order uploads_dir (multipleUpload_allSettled uploads_dir)
        read_file (settle_order uploads_dir).
Proof.
  split; [vm_compute; reflexivity|]. split; [vm_compute; reflexivity|].
  intros H.
  specialize (H last_first [job_react; job_sql] quiet
                [stored_args (lucky "a1") react_png; stored_args (lucky "c3") sql_png]
                (multipleUpload_allSettled uploads_dir last_first
                   [job_react; job_sql] quiet).2).
  assert (Hrun : multipleUpload_allSettled uploads_dir last_first [job_react; job_sql] quiet
                 = (Returned [stored_args (lucky "a1") react_png;
                              stored_args (lucky "c3") sql_png],
                    (multipleUpload_allSettled uploads_dir last_first
                       [job_react; job_sql] quiet).2))
    by (vm_compute; reflexivity).
  specialize (H Hrun). vm_compute in H. discriminate H.
Qed.

Lemma multipleUpload_result_order_witness :
  multipleUpload_all uploads_dir last_first [job_react; job_sql] quiet
    = (Returned [stored_args (lucky "c3") sql_png; stored_args (lucky "a1") react_png],
       (multipleUpload_all uploads_dir last_first [job_react; job_sql] quiet).2)
  ∧ finish_order uploads_dir last_first [job_react; job_sql] quiet = [1; 0]
  ∧ [stored_args (lucky "c3") sql_png; stored_args (lucky "a1") react_png]
    = in_order uploads_dir await_promise [job_react; job_sql] quiet
        (finish_order uploads_dir last_first [job_react; job_sql] quiet).
Proof.
  assert (Hrun : multipleUpload_all uploads_dir last_first [job_react; job_sql] quiet
                 = (Returned [stored_args (lucky "c3") sql_png;
                              stored_args (lucky "a1") react_png],
                    (multipleUpload_all uploads_dir last_first
                       [job_react; job_sql] quiet).2))
    by (vm_compute; reflexivity).
  split; [exact Hrun|]. split; [vm_compute; reflexivity|].
  exact (proj1 (multipleUpload_result_order uploads_dir) _ _ _ _ _ Hrun).
Defined.

Lemma multipleUpload_waits_for_all_witness :
  (multipleUpload_all uploads_dir in_turn [job_react; job_broken] quiet).1
    = Returned [stored_args (lucky "a1") react_png]
  ∧ Forall (λ t, finishedB t = true)
      (poolB uploads_dir in_turn [job_react; job_broken] quiet).1
  ∧ (multipleUpload_all uploads_dir [1; 1; 1; 1; 1; 0] [job_react; job_broken] quiet).1
    = Pending
  ∧ ¬ Forall (λ t, finishedB t = true)
        (poolB uploads_dir [1; 1; 1; 1; 1; 0] [job_react; job_broken] quiet).1.
Proof.
  destruct (multipleUpload_waits_for_all uploads_dir) as [_ (Hjoin & _)].
  assert (Hret : (multipleUpload_all uploads_dir in_turn [job_react; job_broken] quiet).1
                 = Returned [stored_args (lucky "a1") react_png])
    by (vm_compute; reflexivity).
  assert (Hpend : (multipleUpload_all uploads_dir [1; 1; 1; 1; 1; 0]
                     [job_react; job_broken] quiet).1 = Pending)
    by (vm_compute; reflexivity).
  split; [exact Hret|]. split.
  - apply (Hjoin in_turn [job_react; job_broken] quiet). by eexists.
  - split; [exact Hpend|].
    by apply (Hjoin [1; 1; 1; 1; 1; 0] [job_react; job_broken] quiet).
Defined.

Lemma multipleUpload_versions_agree_witness :
  Forall (λ j, coherent (upload j) ∧ same_outcome uploads_dir (storage quiet) j)
    [job_react; job_lost]
  ∧ multipleUpload_allSettled uploads_dir in_turn [job_react; job_lost] quiet
    = (Returned [stored_args (lucky "a1") react_png],
       (multipleUpload_allSettled uploads_dir in_turn [job_react; job_lost] quiet).2)
  ∧ multipleUpload_all uploads_dir last_first [job_react; job_lost] quiet
    = (Returned [stored_args (lucky "a1") react_png],
       (multipleUpload_all uploads_dir last_first [job_react; job_lost] quiet).2)
  ∧ job_result uploads_dir read_file (storage quiet) job_lost
    = inl "Error: Request disconnected"
  ∧ job_result uploads_dir await_promise (storage quiet) job_lost
    = inl "PayloadTooLargeError: File truncated as it exceeds the 5 byte size limit."
  ∧ [stored_args (lucky "a1") react_png] ≡ₚ [stored_args (lucky "a1") react_png]
  ∧ failed_handles uploads_dir read_file (storage quiet) [job_react; job_lost]
    = failed_handles uploads_dir await_promise (storage quiet) [job_react; job_lost]
  ∧ ∃ loggedA loggedB,
      console (multipleUpload_allSettled uploads_dir in_turn
                 [job_react; job_lost] quiet).2 = console quiet ++ loggedA
      ∧ console (multipleUpload_all uploads_dir last_first
                   [job_react; job_lost] quiet).2 = console quiet ++ loggedB
      ∧ loggedA
        = diagnostic <$> omap rejected
            (results_of uploads_dir read_file
               (failed_handles uploads_dir read_file (storage quiet)
                  [job_react; job_lost]) quiet)
      ∧ loggedB
        ≡ₚ diagnostic <$> omap rejected
             (results_of uploads_dir await_promise
                (failed_handles uploads_dir await_promise (storage quiet)
                   [job_react; job_lost]) quiet)
      ∧ length loggedA
        = length (failed_handles uploads_dir read_file (storage quiet)
                    [job_react; job_lost])
      ∧ length loggedB
        = length (failed_handles uploads_dir await_promise (storage quiet)
                    [job_react; job_lost]).
Proof.
  assert (Hsame : Forall (λ j, coherent (upload j)
                               ∧ same_outcome uploads_dir (storage quiet) j)
                    [job_react; job_lost]).
  { assert (HlostA : job_result uploads_dir read_file (storage quiet) job_lost
                     = inl "Error: Request disconnected")
      by (vm_compute; reflexivity).
    assert (HlostB : job_result uploads_dir await_promise (storage quiet) job_lost
                     = inl "PayloadTooLargeError: File truncated as it exceeds the 5 byte size limit.")
      by (vm_compute; reflexivity).
    apply Forall_cons. split; [split; [reflexivity|unfold same_outcome; reflexivity]|].
    apply Forall_cons. split; [|apply Forall_nil_2].
    split; [exact I|]. unfold same_outcome. rewrite HlostA, HlostB. reflexivity. }
  assert (HA : multipleUpload_allSettled uploads_dir in_turn [job_react; job_lost] quiet
               = (Returned [stored_args (lucky "a1") react_png],
                  (multipleUpload_allSettled uploads_dir in_turn
                     [job_react; job_lost] quiet).2))
    by (vm_compute; reflexivity).
  assert (HB : multipleUpload_all uploads_dir last_first [job_react; job_lost] quiet
               = (Returned [stored_args (lucky "a1") react_png],
                  (multipleUpload_all uploads_dir last_first
                     [job_react; job_lost] quiet).2))
    by (vm_compute; reflexivity).
  split; [exact Hsame|]. split; [exact HA|]. split; [exact HB|].
  split; [vm_compute; reflexivity|]. split; [vm_compute; reflexivity|].
  exact (multipleUpload_versions_agree uploads_dir in_turn last_first
           [job_react; job_lost] quiet _ _ _ _ Hsame HA HB).
Defined.

Lemma uploads_lists_the_directory_witness :
  (uploads two_files).1 = inr ["c3-sql.png"; "a1-react.png"]
  ∧ ("a1-react.png" ∈ ["c3-sql.png"; "a1-react.png"]
     ↔ is_Some (entries (storage two_files) !! "a1-react.png"))
  ∧ (uploads locked_dir).1 = inl "Error: EACCES: permission denied, scandir".
Proof.
  destruct (uploads_lists_the_directory two_files) as (_ & Hnames & _).
  destruct (uploads_lists_the_directory locked_dir) as (Hfail & _).
  assert (Hrun : (uploads two_files).1 = inr ["c3-sql.png"; "a1-react.png"])
    by (vm_compute; reflexivity).
  split; [exact Hrun|]. split.
  - exact (proj2 (proj2 (Hnames _ Hrun)) "a1-react.png").
  - apply Hfail. reflexivity.
Defined.

(** C9, as stated, fails: the stream of [broken_png] errors after one chunk
    and [unlink] fails; the call is rejected and the directory, empty
    before, has one file more. *)
Lemma storeUpload_failure_leaves_a_file :
  (∃ e, (storeUpload uploads_dir (sticky "a1") broken_png empty_dir).1 = inl e)
  ∧ size (entries empty_dir) = 0
  ∧ size (entries (storeUpload uploads_dir (sticky "a1") broken_png empty_dir).2) = 1
  ∧ ¬ (∀ φ f s e s',
         storeUpload uploads_dir φ f s = (inl e, s') → entries s' = entries s).
Proof.
  split; [eexists; vm_compute; reflexivity|].
  split; [vm_compute; reflexivity|]. split; [vm_compute; reflexivity|].
  intros H.
  specialize (H (sticky "a1") broken_png empty_dir "Error: Request disconnected"
                (storeUpload uploads_dir (sticky "a1") broken_png empty_dir).2).
  assert (Hrun : storeUpload uploads_dir (sticky "a1") broken_png empty_dir
                 = (inl "Error: Request disconnected",
                    (storeUpload uploads_dir (sticky "a1") broken_png empty_dir).2))
    by (vm_compute; reflexivity).
  specialize (H Hrun). apply (f_equal size) in H. vm_compute in H. discriminate H.
Qed.

Lemma storage_changes_only_at_targets_witness :
  entries (storage two_files) !! target uploads_dir (lucky "b2") broken_png = None
  ∧ storeUpload uploads_dir (lucky "b2") broken_png (storage two_files)
    = (inl "Error: Request disconnected",
       (storeUpload uploads_dir (lucky "b2") broken_png (storage two_files)).2)
  ∧ entries (storeUpload uploads_dir (lucky "b2") broken_png (storage two_files)).2
    = entries (storage two_files)
  ∧ entries (storage two_files)
    ⊆ entries (storeUpload uploads_dir (sticky "b2") broken_png (storage two_files)).2.
Proof.
  destruct (storage_changes_only_at_targets uploads_dir) as (_ & Hstore & _).
  assert (Hfresh : entries (storage two_files)
                     !! target uploads_dir (lucky "b2") broken_png = None)
    by (vm_compute; reflexivity).
  assert (Hrun : storeUpload uploads_dir (lucky "b2") broken_png (storage two_files)
                 = (inl "Error: Request disconnected",
                    (storeUpload uploads_dir (lucky "b2") broken_png
                       (storage two_files)).2))
    by (vm_compute; reflexivity).
  split; [exact Hfresh|]. split; [exact Hrun|]. split.
  - exact (proj1 (proj2 (Hstore (lucky "b2") broken_png (storage two_files) Hfresh))
             _ _ Hrun eq_refl).
  - exact (proj2 (proj2 (Hstore (sticky "b2") broken_png (storage two_files) Hfresh))).
Defined.

(** ** Further properties of [storeUpload] *)

Lemma append_cancel_r (a b c : string) : a +:+ c = b +:+ c → a = b.
Proof.
  assert (Hlen : ∀ x y : string, String.length (x +:+ y) = String.length x + String.length y).
  { induction x as [|ch x IH]; intros y; [done|].
    change (String ch x +:+ y) with (String ch (x +:+ y)). simpl. by rewrite IH. }
  revert b. induction a as [|x a IH]; intros [|y b] H.
  - done.
  - apply (f_equal String.length) in H. rewrite !Hlen in H. simpl in H. lia.
  - apply (f_equal String.length) in H. rewrite !Hlen in H. simpl in H. lia.
  - change (String x (a +:+ c) = String y (b +:+ c)) in H.
    injection H as -> H. f_equal. by apply IH.
Qed.

Lemma delivered_prefix φ stream :
  ∃ r, foldr String.append "" (delivered φ stream) +:+ r
       = foldr String.append "" (chunks stream).
Proof.
  unfold delivered. destruct (failure stream).
  - eexists. apply concat_take_drop.
  - exists "". apply append_empty_r.
Qed.

(** What piping adds to the record: writes to the target only, whose bytes
    are those the target grew by. *)
Lemma pipe_calls d url k cs s :
  ∃ ws, calls (pipe d url k cs s).2 = calls s ++ ws
        ∧ Forall (λ c, ∃ bytes, c = SysWrite url bytes) ws
        ∧ (∃ rest, written_bytes url ws +:+ rest = foldr String.append "" cs)
        ∧ ((pipe d url k cs s).1 = None
           → written_bytes url ws = foldr String.append "" cs).
Proof.
  revert k s. induction cs as [|c rest IH]; intros k s; simpl.
  - exists []. rewrite app_nil_r. repeat split; [constructor|by exists ""].
  - destruct (write_fault d k) as [e|]; simpl.
    + exists [SysWrite url (byte_prefix (short_write d) c)]. split; [done|].
      split; [repeat constructor; by eexists|]. split; [|done].
      simpl. rewrite decide_True by done. rewrite append_empty_r.
      destruct (byte_prefix_split (short_write d) c) as [r Hr].
      exists (r +:+ foldr String.append "" rest). by rewrite <- append_assoc, Hr.
    + destruct (IH (S k) (sys_write url c s)) as (ws & Hc & Hall & [r Hr] & Hnone).
      exists (SysWrite url c :: ws). split.
      { rewrite Hc. simpl. by rewrite <- app_assoc. }
      split; [constructor; [by eexists|done]|].
      simpl. rewrite decide_True by done. split.
      * exists r. by rewrite append_assoc, Hr.
      * intros H. by rewrite (Hnone H).
Qed.

Lemma calls_sys_unlink b url s :
  calls (sys_unlink b url s) = calls s ++ [SysUnlink url].
Proof. by destruct b. Qed.

Section StoreExtras.
Variable new_URL : string → string.

Local Abbreviation storeUpload := (storeUpload new_URL).
Local Abbreviation target := (target new_URL).

Lemma storeUpload_filename_and_args φ f s a s' :
  storeUpload φ f s = (inr a, s') → a = stored_args φ f.
Proof.
  unfold storeUpload.
  destruct (throws φ (storedFileName_of φ f)); [done|].
  destruct (open_fault (faults φ f)); [done|].
  destruct (pipe _ _ _ _ _) as [[e|] s1]; [done|].
  destruct (failure _); [done|]. by intros [= <- <-].
Qed.

Lemma storeUpload_filename_and_target φ f s a s' :
  storeUpload φ f s = (inr a, s') → new_URL (FileArgs.filename a) = target φ f.
Proof. intros H. by rewrite (storeUpload_filename_and_args _ _ _ _ _ H). Qed.

(** X1: What one [storeUpload] does to the directory, in order. If the
    synchronous part throws: nothing. Otherwise the target is opened first
    and only writes to the target follow; when the call succeeds the bytes
    written are the whole upload, in the order of the stream, and nothing is
    removed; when it fails the bytes written are a prefix of the upload and
    one [unlink] of the target comes last. *)
Theorem storeUpload_calls φ f s :
  match throws φ (storedFileName_of φ f) with
  | Some _ => calls (storeUpload φ f s).2 = calls s
  | None =>
      ∃ ws, Forall (λ c, ∃ bytes, c = SysWrite (target φ f) bytes) ws
            ∧ match (storeUpload φ f s).1 with
              | inr _ =>
                  calls (storeUpload φ f s).2
                  = calls s ++ SysOpen (target φ f) :: ws
                  ∧ written_bytes (target φ f) ws = whole f
              | inl _ =>
                  calls (storeUpload φ f s).2
                  = calls s ++ SysOpen (target φ f) :: ws ++ [SysUnlink (target φ f)]
                  ∧ ∃ rest, written_bytes (target φ f) ws +:+ rest = whole f
              end
  end.
Proof.
  unfold storeUpload, target, whole.
  destruct (throws φ (storedFileName_of φ f)); [done|].
  destruct (open_fault (faults φ f)); cbn [fst snd].
  { exists []. split; [constructor|]. rewrite calls_sys_unlink. simpl.
    rewrite <- app_assoc. split; [done|]. by eexists. }
  destruct (pipe_calls (faults φ f) (new_URL (storedFileName_of φ f)) 0
              (delivered φ (FileUpload.createReadStream f))
              (sys_open (new_URL (storedFileName_of φ f)) s))
    as (ws & Hc & Hall & [r Hr] & Hnone).
  destruct (delivered_prefix φ (FileUpload.createReadStream f)) as [r2 Hr2].
  assert (Hpre : ∃ rest, written_bytes (new_URL (storedFileName_of φ f)) ws +:+ rest
                         = foldr String.append "" (chunks (FileUpload.createReadStream f))).
  { exists (r +:+ r2). by rewrite <- append_assoc, Hr, Hr2. }
  exists ws. split; [done|].
  destruct (pipe _ _ _ _ _) as [[e|] s1]; cbn [fst snd] in *.
  - rewrite calls_sys_unlink, Hc. simpl. rewrite <- !app_assoc. by split.
  - destruct (failure (FileUpload.createReadStream f)) eqn:Hf; cbn [fst snd].
    + rewrite calls_sys_unlink, Hc. simpl. rewrite <- !app_assoc. by split.
    + rewrite Hc. simpl. rewrite <- app_assoc. split; [done|].
      rewrite (Hnone eq_refl). unfold delivered. by rewrite Hf.
Qed.

Lemma pipe_unreadable d url k cs s :
  unreadable (pipe d url k cs s).2 = unreadable s.
Proof.
  revert k s. induction cs as [|c rest IH]; intros k s; simpl; [done|].
  destruct (write_fault d k); simpl; [done|]. by rewrite IH.
Qed.

Lemma storeUpload_unreadable φ f s :
  unreadable (storeUpload φ f s).2 = unreadable s.
Proof.
  unfold storeUpload.
  assert (Hu : ∀ b u s0, unreadable (sys_unlink b u s0) = unreadable s0)
    by (by intros [] ??).
  pose proof (pipe_unreadable (faults φ f) (new_URL (storedFileName_of φ f)) 0
              (delivered φ (FileUpload.createReadStream f))
              (sys_open (new_URL (storedFileName_of φ f)) s)) as Hp.
  destruct (throws φ (storedFileName_of φ f)); cbn [snd]; [done|].
  destruct (open_fault (faults φ f)); cbn [snd]; [by rewrite Hu|].
  destruct (pipe _ _ _ _ _) as [[e|] s1]; cbn [snd] in *; [by rewrite Hu|].
  destruct (failure _); cbn [snd]; [by rewrite Hu|done].
Qed.

(** X2: When the target name is already taken, a successful [storeUpload]
    replaces the entry: it holds the new upload and nothing of what it held,
    and the directory has as many entries as before. A failed one whose
    [unlink] works removes the entry that was there, unless the failure was
    a throw of the synchronous part, which leaves the directory alone. *)
Theorem storeUpload_name_collision φ f s old :
  entries s !! target φ f = Some old →
  (∀ a s', storeUpload φ f s = (inr a, s') →
     entries s' !! target φ f = Some (whole f)
     ∧ size (entries s') = size (entries s))
  ∧ (∀ e s', storeUpload φ f s = (inl e, s') → unlink_fails φ = false →
     match throws φ (storedFileName_of φ f) with
     | None =>
         entries s' !! target φ f = None
         ∧ S (size (entries s')) = size (entries s)
     | Some _ => entries s' = entries s
     end).
Proof.
  intros Hold. split.
  - intros a s' Hs. rewrite (storeUpload_success_content _ _ _ _ _ _ Hs).
    split; [apply lookup_insert_eq|]. by eapply map_size_insert_Some.
  - intros e s' Hs Hu.
    destruct (throws φ (storedFileName_of φ f)) as [thrown|] eqn:Ht.
    { rewrite (storeUpload_early _ _ _ _ _ Ht) in Hs. by injection Hs as <- <-. }
    rewrite (storeUpload_failure_content _ _ _ _ _ _ Hs Ht Hu).
    split; [apply lookup_delete_eq|].
    rewrite <- (insert_delete_id (entries s) (target φ f) old Hold) at 2.
    symmetry. apply map_size_insert_None, lookup_delete_eq.
Qed.

(** X3: What a failed [storeUpload] leaves behind when [unlink] fails too: if
    the synchronous part threw or the target could not be opened, the
    directory as it was; otherwise an entry at the target holding the first
    bytes of the upload (a write that fails may have written part of its
    chunk, and chunks still buffered when the stream errors are lost). *)
Theorem storeUpload_leftover_is_prefix φ f s e s' :
  storeUpload φ f s = (inl e, s') →
  unlink_fails φ = true →
  match throws φ (storedFileName_of φ f), open_fault (faults φ f) with
  | None, None =>
      ∃ left rest, entries s' !! target φ f = Some left ∧ left +:+ rest = whole f
  | _, _ => entries s' = entries s
  end.
Proof.
  unfold storeUpload, target, whole. intros Hs Hu. rewrite Hu in Hs.
  destruct (throws φ (storedFileName_of φ f)); [by injection Hs as <- <-|].
  destruct (open_fault (faults φ f)); [by injection Hs as <- <-|].
  destruct (pipe_content (faults φ f) (new_URL (storedFileName_of φ f)) 0
              (delivered φ (FileUpload.createReadStream f))
              (sys_open (new_URL (storedFileName_of φ f)) s) "")
    as (written & Hw & [r Hr] & _).
  { simpl. by rewrite lookup_insert_eq. }
  destruct (delivered_prefix φ (FileUpload.createReadStream f)) as [r2 Hr2].
  exists written, (r +:+ r2). split.
  - destruct (pipe _ _ _ _ _) as [[e'|] s1]; cbn [snd] in Hw.
    + by injection Hs as <- <-.
    + destruct (failure _); [|done]. by injection Hs as <- <-.
  - by rewrite <- append_assoc, Hr, Hr2.
Qed.

(** X4: After a successful [singleUpload] the listing is the listing of before
    with the entry of the stored file added. *)
Theorem stored_file_is_listed φ u w a w' :
  singleUpload new_URL φ u w = (inr a, w') →
  unreadable (storage w) = None →
  ∃ before after,
    (uploads w).1 = inr before ∧ (uploads w').1 = inr after
    ∧ new_URL (FileArgs.filename a) ∈ after
    ∧ ∀ name, name ∈ after ↔ name ∈ before ∨ name = new_URL (FileArgs.filename a).
Proof.
  unfold singleUpload. destruct (storeUpload φ (file u) (storage w)) as [r s1] eqn:Hs.
  intros [= -> <-] Hread.
  pose proof (storeUpload_unreadable φ (file u) (storage w)) as Hread'.
  rewrite Hs in Hread'. simpl in Hread'.
  pose proof (storeUpload_success_content _ _ _ _ _ _ Hs) as Hent.
  pose proof (storeUpload_filename_and_target φ (file u) (storage w) a s1 Hs) as Ha.
  exists (map_to_list (entries (storage w))).*1, (map_to_list (entries s1)).*1.
  unfold uploads, readdir. simpl. rewrite Hread' , Hread. simpl.
  assert (Hmem : ∀ (m : gmap string string) name,
            name ∈ (map_to_list m).*1 ↔ is_Some (m !! name)).
  { intros m name. rewrite list_elem_of_fmap. split.
    - intros ([k v] & -> & Hin). apply elem_of_map_to_list in Hin. by eexists.
    - intros [v Hv]. exists (name, v). split; [done|]. by apply elem_of_map_to_list. }
  split; [done|]. split; [done|]. rewrite Ha, Hent. split.
  - apply Hmem. rewrite lookup_insert_eq. by eexists.
  - intros name. rewrite !Hmem. destruct (decide (name = target φ (file u))) as [->|Hne].
    + rewrite lookup_insert_eq. split; [by right|by eexists].
    + rewrite lookup_insert_ne by done. split; [by left|by intros [|]].
Qed.

(** X5: After a failed [singleUpload] whose [unlink] works, on a name that was
    free, the listing is what it was, and nothing was logged. *)
Theorem failed_upload_is_not_listed φ u w e w' :
  singleUpload new_URL φ u w = (inl e, w') →
  unlink_fails φ = false →
  entries (storage w) !! target φ (file u) = None →
  (uploads w').1 = (uploads w).1 ∧ console w' = console w.
Proof.
  unfold singleUpload. destruct (storeUpload φ (file u) (storage w)) as [r s1] eqn:Hs.
  intros [= -> <-] Hu Hfresh. split; [|done].
  pose proof (storeUpload_unreadable φ (file u) (storage w)) as Hread'.
  rewrite Hs in Hread'. simpl in Hread'.
  pose proof (storeUpload_failure_fresh _ _ _ _ _ _ Hs Hu Hfresh) as Hent.
  unfold uploads, readdir. simpl. rewrite Hread', Hent.
  by destruct (unreadable (storage w)).
Qed.

(** X6: Two successful calls for the same client filename that were given
    different identifiers return different filenames. *)
Theorem distinct_ids_distinct_filenames φ1 φ2 f1 f2 s1 s2 a1 a2 s1' s2' :
  storeUpload φ1 f1 s1 = (inr a1, s1') →
  storeUpload φ2 f2 s2 = (inr a2, s2') →
  FileUpload.filename f1 = FileUpload.filename f2 →
  shortId_generate φ1 ≠ shortId_generate φ2 →
  FileArgs.filename a1 ≠ FileArgs.filename a2.
Proof.
  intros H1 H2 Hname Hid Heq. apply Hid.
  rewrite (storeUpload_filename_and_args φ1 f1 s1 a1 s1' H1) in Heq.
  rewrite (storeUpload_filename_and_args φ2 f2 s2 a2 s2' H2) in Heq.
  simpl in Heq. unfold storedFileName_of in Heq. rewrite Hname in Heq.
  by apply append_cancel_r in Heq.
Qed.

End StoreExtras.

(** ** Further properties of [multipleUpload] *)

Lemma run_all_final {T W : Type} (advance : T → W → T * W) (final : T → bool)
    (Hstuck : ∀ t w, final t = true → advance t w = (t, w)) sched p :
  Forall (λ t, final t = true) p.1 → run advance sched p = p.
Proof.
  intros Hall. induction sched as [|i sched IH]; [done|].
  rewrite run_cons. destruct (p.1 !! i) as [t|] eqn:Hi.
  - rewrite (tick_final_task advance final Hstuck i p t Hi); [done|].
    by eapply (Forall_lookup_1 _ _ _ _ Hall).
  - by rewrite tick_outside.
Qed.

Lemma length_fulfilled_rejected (rs : list (Error + FileArgs.t)) :
  length (omap fulfilled rs) + length (omap rejected rs) = length rs.
Proof. induction rs as [|[e|a] rs IH]; csimpl; lia. Qed.

Section BatchExtras.
Variable new_URL : string → string.

Local Abbreviation multipleUploadA := (multipleUpload_allSettled new_URL).
Local Abbreviation multipleUploadB := (multipleUpload_all new_URL).
Local Abbreviation poolA := (poolA new_URL).
Local Abbreviation poolB := (poolB new_URL).

(** X8: When the diagnostics are written. The version over [Promise.allSettled]
    logs nothing while it is pending and, when it returns, has logged the
    reasons of the failed calls in the order of its input. The version over
    [Promise.all] has logged, at every moment, the reasons of the tasks that
    have failed so far, in the order in which they finished. *)
Theorem multipleUpload_log_order sched files w :
  (∀ value w', multipleUploadA sched files w = (Returned value, w') →
     console w' = console w
       ++ (diagnostic <$> omap rejected (results_of new_URL read_file files w)))
  ∧ ((multipleUploadA sched files w).1 = Pending →
     console (multipleUploadA sched files w).2 = console w)
  ∧ console (multipleUploadB sched files w).2
    = console w
      ++ (diagnostic <$>
            omap (λ i, files !! i ≫= λ j,
                    rejected (job_result new_URL await_promise (storage w) j))
              (finish_order new_URL sched files w)).
Proof.
  split; [|split].
  - intros value w'.
    destruct (allSettled_cases new_URL sched files w) as [[_ ->]|[_ ->]]; [|done].
    by intros [= <- <-].
  - by destruct (allSettled_cases new_URL sched files w) as [[_ ->]|[_ ->]].
  - destruct (runB_trace new_URL sched (startB files w)) as [_ Hd].
    unfold multipleUpload_all. fold (poolB sched files w).
    assert (Hc : diagnostics (poolB sched files w).2
                 = console w
                   ++ (diagnostic <$>
                         omap (λ i, files !! i ≫= λ j,
                                 rejected (job_result new_URL await_promise (storage w) j))
                           (finish_order new_URL sched files w))).
    { unfold poolB. rewrite Hd. simpl. f_equal. f_equal.
      apply omap_ext_in. intros i _. apply bound_to_start_rejected. }
    by destruct (Promise_all _).
Qed.

(** X9: Every file of a returned batch is accounted for exactly once: it has
    either an element in the result or a line in the console. *)
Theorem multipleUpload_accounts_for_every_file sched files w :
  (∀ value w', multipleUpload_allSettled new_URL sched files w = (Returned value, w') →
     length value + length (console w') = length files + length (console w))
  ∧ (∀ value w', multipleUpload_all new_URL sched files w = (Returned value, w') →
     length value + length (console w') = length files + length (console w)).
Proof.
  split; intros value w'.
  - destruct (allSettled_cases new_URL sched files w) as [[_ ->]|[_ ->]]; [|done].
    intros [= <- <-]. simpl. rewrite length_app, length_fmap.
    pose proof (length_fulfilled_rejected (results_of new_URL read_file files w)) as H.
    unfold results_of in H at 3. rewrite length_fmap in H. lia.
  - destruct (all_cases new_URL sched files w) as [[Hall ->]|[_ H]].
    + intros [= <- <-]. simpl. rewrite length_app, length_fmap.
      unfold in_order.
      rewrite (in_finish_order new_URL fulfilled sched files w Hall).
      rewrite (in_finish_order new_URL rejected sched files w Hall).
      pose proof (length_fulfilled_rejected (results_of new_URL await_promise files w)) as H.
      unfold results_of in H at 3. rewrite length_fmap in H. lia.
    + intros Heq. by rewrite Heq in H.
Qed.

(** X10: Once a batch has returned, events served afterwards change neither
    its result nor the world. *)
Theorem multipleUpload_stable_after_return sched more files w :
  (∀ value w', multipleUpload_allSettled new_URL sched files w = (Returned value, w') →
     multipleUpload_allSettled new_URL (sched ++ more) files w = (Returned value, w'))
  ∧ (∀ value w', multipleUpload_all new_URL sched files w = (Returned value, w') →
     multipleUpload_all new_URL (sched ++ more) files w = (Returned value, w')).
Proof.
  split; intros value w' Hret.
  - destruct (allSettled_cases new_URL sched files w) as [[Hall Heq]|[_ Heq]];
      [|by rewrite Heq in Hret].
    rewrite <- Hret. unfold multipleUpload_allSettled.
    fold (poolA (sched ++ more) files w). fold (poolA sched files w).
    rewrite poolA_app.
    by rewrite (run_all_final (step new_URL) settled (step_settled new_URL) more _ Hall).
  - destruct (all_cases new_URL sched files w) as [[Hall Heq]|[_ Heq]];
      [|by rewrite Hret in Heq].
    rewrite <- Hret. unfold multipleUpload_all.
    fold (poolB (sched ++ more) files w). fold (poolB sched files w).
    rewrite poolB_app.
    by rewrite (run_all_final (stepB new_URL) finishedB (stepB_finished new_URL) more _ Hall).
Qed.

End BatchExtras.

(** ** The file-system calls and the directory of a batch *)

Section BatchDirectory.
Variable new_URL : string → string.

Local Abbreviation step := (step new_URL).
Local Abbreviation steps := (steps new_URL).
Local Abbreviation stepB := (stepB new_URL).
Local Abbreviation t_url := (t_url new_URL).
Local Abbreviation urlB := (urlB new_URL).
Local Abbreviation target := (target new_URL).
Local Abbreviation storeUpload := (storeUpload new_URL).
Local Abbreviation multipleUploadA := (multipleUpload_allSettled new_URL).
Local Abbreviation multipleUploadB := (multipleUpload_all new_URL).
Local Abbreviation poolA := (poolA new_URL).
Local Abbreviation poolB := (poolB new_URL).
Local Abbreviation pathA := (job_path new_URL read_file).
Local Abbreviation pathB := (job_path new_URL await_promise).

Lemma step_calls t s :
  ∃ l, calls (step t s).2 = calls s ++ l
       ∧ Forall (λ c, call_path c = Some (t_url t)) l.
Proof.
  step_cases t; simpl.
  all: try (exists []; by rewrite app_nil_r).
  all: try (eexists [_]; split; [reflexivity|]; by repeat constructor).
  destruct (unlink_fails φ); eexists [_]; split; try reflexivity; by repeat constructor.
Qed.

Lemma stepB_calls t r :
  ∃ l, calls (disk_state (stepB t r).2) = calls (disk_state r) ++ l
       ∧ Forall (λ c, ∃ p, urlB t = Some p ∧ call_path c = Some p) l.
Proof.
  destruct t as [j|t|res]; simpl.
  - exists []. rewrite app_nil_r. by destruct (promise (upload j)).
  - destruct (step_calls t (disk_state r)) as (l & Hl & Hall).
    exists l. split.
    + destruct (step t (disk_state r)) as [t' s'].
      simpl in Hl. by destruct (t_phase t') as [| | |[|]].
    + eapply Forall_impl; [exact Hall|]. intros c Hc. by exists (t_url t).
  - exists []. by rewrite app_nil_r.
Qed.

Lemma stepB_url_from t r p : urlB (stepB t r).1 = Some p → urlB t = Some p.
Proof.
  intros H. destruct (decide (urlB t = Some p)) as [|Hne]; [done|].
  by destruct (stepB_url new_URL t r p Hne).
Qed.

(** X11: Every file-system call a batch makes is about the target of one of
    its own calls of [storeUpload]: it never lists the directory and never
    touches another entry, and the calls made before the batch are still on
    record. In the version over [Promise.all] the targets are those of the
    uploads whose promise resolved, so that every call is on the target of
    such an upload; in the version over [Promise.allSettled] a call of
    [storeUpload] is made for every upload. *)
Theorem multipleUpload_calls_name_targets sched files w :
  (∃ made, calls (storage (multipleUploadA sched files w).2)
           = calls (storage w) ++ made
           ∧ Forall (λ c, ∃ j p, j ∈ files ∧ pathA j = Some p
                                 ∧ call_path c = Some p) made)
  ∧ (∃ made, calls (storage (multipleUploadB sched files w).2)
             = calls (storage w) ++ made
             ∧ Forall (λ c, ∃ j p, j ∈ files ∧ pathB j = Some p
                                   ∧ call_path c = Some p) made).
Proof.
  split.
  - assert (Hinv : Forall (λ t, ∃ j, j ∈ files ∧ pathA j = Some (t_url t))
                     (poolA sched files w).1
                   ∧ ∃ made, calls (poolA sched files w).2 = calls (storage w) ++ made
                             ∧ Forall (λ c, ∃ j p, j ∈ files ∧ pathA j = Some p
                                                   ∧ call_path c = Some p) made).
    { apply (run_invariant step
               (λ q, Forall (λ t, ∃ j, j ∈ files ∧ pathA j = Some (t_url t)) q.1
                     ∧ ∃ made, calls q.2 = calls (storage w) ++ made
                               ∧ Forall (λ c, ∃ j p, j ∈ files ∧ pathA j = Some p
                                                     ∧ call_path c = Some p) made)).
      - intros i q [Hq (made & Hm & Hgood)]. destruct (q.1 !! i) as [t|] eqn:Hi.
        + rewrite (tick_inside _ _ _ _ Hi). simpl.
          pose proof (Forall_lookup_1 _ _ _ _ Hq Hi) as (j & Hj & Hp). split.
          * apply Forall_insert; [done|]. exists j. by rewrite step_url.
          * destruct (step_calls t q.2) as (l & Hl & Hall).
            exists (made ++ l). rewrite Hl, Hm, app_assoc. split; [done|].
            apply Forall_app. split; [done|].
            eapply Forall_impl; [exact Hall|]. intros c Hc. by exists j, (t_url t).
        + rewrite tick_outside by done. split; [done|]. by exists made.
      - simpl. split.
        + apply Forall_fmap, Forall_forall. intros j Hj. by exists j.
        + exists []. by rewrite app_nil_r. }
    destruct Hinv as [_ Hmade].
    by destruct (allSettled_cases new_URL sched files w) as [[_ ->]|[_ ->]].
  - assert (Hinv : Forall (λ t, ∀ p, urlB t = Some p → ∃ j, j ∈ files ∧ pathB j = Some p)
                     (poolB sched files w).1
                   ∧ ∃ made, calls (disk_state (poolB sched files w).2)
                             = calls (storage w) ++ made
                             ∧ Forall (λ c, ∃ j p, j ∈ files ∧ pathB j = Some p
                                                   ∧ call_path c = Some p) made).
    { apply (run_invariant stepB
               (λ q, Forall (λ t, ∀ p, urlB t = Some p → ∃ j, j ∈ files ∧ pathB j = Some p)
                       q.1
                     ∧ ∃ made, calls (disk_state q.2) = calls (storage w) ++ made
                               ∧ Forall (λ c, ∃ j p, j ∈ files ∧ pathB j = Some p
                                                     ∧ call_path c = Some p) made)).
      - intros i q [Hq (made & Hm & Hgood)]. destruct (q.1 !! i) as [t|] eqn:Hi.
        + rewrite (tick_inside _ _ _ _ Hi). simpl.
          pose proof (Forall_lookup_1 _ _ _ _ Hq Hi) as Ht. split.
          * apply Forall_insert; [done|]. intros p Hp.
            apply Ht. by eapply stepB_url_from.
          * destruct (stepB_calls t q.2) as (l & Hl & Hall).
            exists (made ++ l). rewrite Hl, Hm, app_assoc. split; [done|].
            apply Forall_app. split; [done|].
            eapply Forall_impl; [exact Hall|]. intros c (p & Hu & Hc).
            destruct (Ht p Hu) as (j & Hj & Hp). by exists j, p.
        + rewrite tick_outside by done. split; [done|]. by exists made.
      - simpl. split.
        + apply Forall_fmap, Forall_forall. intros j Hj p Hp. by exists j.
        + exists []. by rewrite app_nil_r. }
    destruct Hinv as [_ Hmade]. unfold multipleUpload_all.
    by destruct (Promise_all _).
Qed.

End BatchDirectory.

(** ** A call inside a batch and the same call alone *)

Section BatchAlone.
Variable new_URL : string → string.

Local Abbreviation step := (step new_URL).
Local Abbreviation steps := (steps new_URL).
Local Abbreviation stepB := (stepB new_URL).
Local Abbreviation t_url := (t_url new_URL).
Local Abbreviation urlB := (urlB new_URL).
Local Abbreviation target := (target new_URL).
Local Abbreviation storeUpload := (storeUpload new_URL).
Local Abbreviation multipleUploadA := (multipleUpload_allSettled new_URL).
Local Abbreviation multipleUploadB := (multipleUpload_all new_URL).
Local Abbreviation poolA := (poolA new_URL).
Local Abbreviation poolB := (poolB new_URL).
Local Abbreviation pathA := (job_path new_URL read_file).
Local Abbreviation pathB := (job_path new_URL await_promise).

Lemma steps_S_r n t s :
  steps (S n) t s = step (steps n t s).1 (steps n t s).2.
Proof.
  revert t s. induction n as [|n IH]; intros t s.
  - simpl. by destruct (step t s).
  - change (steps (S (S n)) t s)
      with (let '(t', s') := step t s in steps (S n) t' s').
    change (steps (S n) t s) with (let '(t', s') := step t s in steps n t' s').
    destruct (step t s) as [t' s']. apply IH.
Qed.

Lemma steps_add n m t s :
  steps (n + m) t s = steps m (steps n t s).1 (steps n t s).2.
Proof.
  revert t s. induction n as [|n IH]; intros t s; [done|].
  simpl. destruct (step t s) as [t' s']. apply IH.
Qed.

Lemma steps_settled n t s : settled t = true → steps n t s = (t, s).
Proof.
  intros Hs. induction n as [|n IH]; [done|].
  simpl. by rewrite (step_settled new_URL t s Hs).
Qed.

Lemma steps_url n t s : t_url (steps n t s).1 = t_url t.
Proof.
  induction n as [|n IH]; [done|]. by rewrite steps_S_r, step_url.
Qed.

(** A call that has settled after some events ended as [storeUpload] does. *)
Lemma settled_steps_storeUpload n φ f s :
  settled (steps n (launch φ f) s).1 = true →
  steps n (launch φ f) s
  = (mkTask f φ (Settled (storeUpload φ f s).1), (storeUpload φ f s).2).
Proof.
  intros Hs.
  rewrite <- (steps_storeUpload new_URL φ f s
                (n + (length (chunks (FileUpload.createReadStream f)) + 3))) by lia.
  rewrite steps_add, (steps_settled _ _ _ Hs). by destruct (steps n (launch φ f) s).
Qed.

Lemma step_task_any t s1 s2 : (step t s1).1 = (step t s2).1.
Proof. step_cases t; done. Qed.

(** What an event does to the entry of its task depends on that entry only. *)
Lemma step_local t s1 s2 :
  entries s1 !! t_url t = entries s2 !! t_url t →
  entries (step t s1).2 !! t_url t = entries (step t s2).2 !! t_url t.
Proof.
  intros H. step_cases t; unfold t_url in *; simpl in *; try done.
  all: try (by rewrite !lookup_insert_eq).
  all: try (by rewrite !lookup_insert_eq, H).
  destruct (unlink_fails φ); simpl; [done|]. by rewrite !lookup_delete_eq.
Qed.

Lemma poolA_alone sched files w i j :
  files !! i = Some j →
  (∀ k j', k ≠ i → files !! k = Some j' → pathA j' ≠ pathA j) →
  ∃ n, (poolA sched files w).1 !! i = Some (steps n (launch_job j) (storage w)).1
       ∧ entries (poolA sched files w).2 !! t_url (launch_job j)
         = entries (steps n (launch_job j) (storage w)).2 !! t_url (launch_job j).
Proof.
  intros Hi Hothers.
  set (P := λ q : list Task * Storage,
         (∃ n, q.1 !! i = Some (steps n (launch_job j) (storage w)).1
               ∧ entries q.2 !! t_url (launch_job j)
                 = entries (steps n (launch_job j) (storage w)).2 !! t_url (launch_job j))
         ∧ ∀ k u, k ≠ i → q.1 !! k = Some u → t_url u ≠ t_url (launch_job j)).
  assert (HP : P (poolA sched files w)); [|by destruct HP].
  apply (run_invariant step P).
  - intros i0 q [(n & Ht & Hent) Hurls].
    destruct (decide (i0 = i)) as [->|Hne].
    + split.
      * exists (S n). rewrite (tick_lookup_eq step _ _ _ Ht), steps_S_r.
        split; [f_equal; apply step_task_any|].
        rewrite (tick_inside _ _ _ _ Ht). simpl.
        rewrite <- (steps_url n (launch_job j) (storage w)).
        apply step_local. by rewrite steps_url.
      * intros k u Hk. rewrite tick_lookup_ne by done. by apply Hurls.
    + split.
      * exists n. rewrite tick_lookup_ne by done. split; [done|].
        destruct (q.1 !! i0) as [u|] eqn:Hu.
        -- rewrite (tick_inside _ _ _ _ Hu). simpl. rewrite <- Hent.
           apply step_frame. intros Heq. by apply (Hurls i0 u Hne Hu).
        -- by rewrite tick_outside.
      * intros k u Hk. destruct (decide (i0 = k)) as [->|Hne'].
        -- destruct (q.1 !! k) as [u0|] eqn:Hu0.
           ++ rewrite (tick_lookup_eq step _ _ _ Hu0). intros [= <-].
              rewrite step_url. by eapply Hurls.
           ++ rewrite tick_outside by done. by apply Hurls.
        -- rewrite tick_lookup_ne by done. by apply Hurls.
  - split.
    + exists 0. simpl. by rewrite list_lookup_fmap, Hi.
    + intros k u Hk. simpl. rewrite list_lookup_fmap.
      destruct (files !! k) as [j'|] eqn:Hj'; [|done]. intros [= <-] Heq.
      apply (Hothers k j' Hk Hj'). unfold job_path, read_file. f_equal. exact Heq.
Qed.

Lemma poolB_alone sched files w i j f :
  files !! i = Some j →
  await_promise j = inr f →
  (∀ k j', k ≠ i → files !! k = Some j' → pathB j' ≠ pathB j) →
  match (poolB sched files w).1 !! i with
  | Some (Awaiting j') =>
      j' = j ∧ entries (disk_state (poolB sched files w).2) !! target (fate j) f
               = entries (storage w) !! target (fate j) f
  | Some (Storing t) =>
      ∃ n, t = (steps n (launch (fate j) f) (storage w)).1
           ∧ entries (disk_state (poolB sched files w).2) !! target (fate j) f
             = entries (steps n (launch (fate j) f) (storage w)).2 !! target (fate j) f
  | Some (Finished _) =>
      entries (disk_state (poolB sched files w).2) !! target (fate j) f
      = entries (storeUpload (fate j) f (storage w)).2 !! target (fate j) f
  | None => False
  end.
Proof.
  intros Hi Hp Hothers.
  set (own := λ (t : TaskB) (m : gmap string string),
         match t with
         | Awaiting j' =>
             j' = j ∧ m !! target (fate j) f = entries (storage w) !! target (fate j) f
         | Storing t =>
             ∃ n, t = (steps n (launch (fate j) f) (storage w)).1
                  ∧ m !! target (fate j) f
                    = entries (steps n (launch (fate j) f) (storage w)).2
                        !! target (fate j) f
         | Finished _ =>
             m !! target (fate j) f
             = entries (storeUpload (fate j) f (storage w)).2 !! target (fate j) f
         end).
  set (P := λ q : list TaskB * Resolver,
         (∃ t, q.1 !! i = Some t ∧ own t (entries (disk_state q.2)))
         ∧ ∀ k u, k ≠ i → q.1 !! k = Some u → urlB u ≠ Some (target (fate j) f)).
  assert (HP : P (poolB sched files w)).
  2:{ destruct HP as [(t & Ht & Hown) _]. rewrite Ht. by destruct t. }
  assert (Hframe : ∀ t u r, urlB u ≠ Some (target (fate j) f) →
            own t (entries (disk_state r)) →
            own t (entries (disk_state (stepB u r).2))).
  { intros t u r Hu Hown.
    pose proof (stepB_frame new_URL u r (target (fate j) f) Hu) as Hfr.
    destruct t as [j'|t|res]; simpl in *.
    - by rewrite Hfr.
    - destruct Hown as (n & Hn & Hent). exists n. by rewrite Hfr.
    - by rewrite Hfr. }
  apply (run_invariant stepB P).
  - intros i0 q [(t & Ht & Hown) Hurls].
    destruct (decide (i0 = i)) as [->|Hne].
    + split.
      * exists (stepB t q.2).1. rewrite (tick_lookup_eq stepB _ _ _ Ht).
        split; [done|]. rewrite (tick_inside _ _ _ _ Ht). cbn [snd].
        destruct t as [j'|t|res]; simpl in Hown |- *.
        -- destruct Hown as [-> Hent]. unfold await_promise in Hp. rewrite Hp. simpl.
           exists 0. by split.
        -- destruct Hown as (n & -> & Hent).
           pose proof (steps_S_r n (launch (fate j) f) (storage w)) as HS.
           pose proof (step_task_any (steps n (launch (fate j) f) (storage w)).1
                         (disk_state q.2)
                         (steps n (launch (fate j) f) (storage w)).2) as Htask.
           pose proof (step_local (steps n (launch (fate j) f) (storage w)).1
                         (disk_state q.2)
                         (steps n (launch (fate j) f) (storage w)).2) as Hloc.
           rewrite steps_url in Hloc. specialize (Hloc Hent).
           rewrite <- HS in Htask, Hloc.
           destruct (step (steps n (launch (fate j) f) (storage w)).1 (disk_state q.2))
             as [t' s'] eqn:Hstep. cbn [fst snd] in Htask, Hloc.
           destruct (t_phase t') as [| | |res] eqn:Hph.
           ++ simpl. exists (S n). by split.
           ++ simpl. exists (S n). by split.
           ++ simpl. exists (S n). by split.
           ++ assert (Hset : settled (steps (S n) (launch (fate j) f) (storage w)).1 = true).
              { rewrite <- Htask. unfold settled. by rewrite Hph. }
              rewrite (settled_steps_storeUpload _ _ _ _ Hset) in Hloc.
              by destruct res.
        -- done.
      * intros k u Hk. rewrite tick_lookup_ne by done. by apply Hurls.
    + split.
      * exists t. rewrite tick_lookup_ne by done. split; [done|].
        destruct (q.1 !! i0) as [u|] eqn:Hu.
        -- rewrite (tick_inside _ _ _ _ Hu). cbn [snd].
           apply Hframe; [|done]. by apply (Hurls i0 u Hne Hu).
        -- by rewrite tick_outside.
      * intros k u Hk. destruct (decide (i0 = k)) as [->|Hne'].
        -- destruct (q.1 !! k) as [u0|] eqn:Hu0.
           ++ rewrite (tick_lookup_eq stepB _ _ _ Hu0). intros [= <-].
              apply stepB_url. by eapply Hurls.
           ++ rewrite tick_outside by done. by apply Hurls.
        -- rewrite tick_lookup_ne by done. by apply Hurls.
  - split.
    + exists (Awaiting j). simpl. rewrite list_lookup_fmap, Hi. done.
    + intros k u Hk. simpl. rewrite list_lookup_fmap.
      destruct (files !! k) as [j'|] eqn:Hj'; [|done]. intros [= <-]. simpl.
      intros Heq. apply (Hothers k j' Hk Hj').
      transitivity (Some (target (fate j) f)); [exact Heq|].
      unfold job_path. by rewrite Hp.
Qed.

Lemma allSettled_entry_as_alone sched files w i j value w' :
  files !! i = Some j →
  (∀ k j', k ≠ i → files !! k = Some j' → pathA j' ≠ pathA j) →
  multipleUploadA sched files w = (Returned value, w') →
  entries (storage w') !! target (fate j) (file (upload j))
  = entries (storeUpload (fate j) (file (upload j)) (storage w)).2
      !! target (fate j) (file (upload j)).
Proof.
  intros Hi Hothers.
  destruct (allSettled_cases new_URL sched files w) as [[Hall ->]|[_ ->]]; [|done].
  intros [= <- <-]. simpl.
  destruct (poolA_alone sched files w i j Hi Hothers) as (n & Ht & Hent).
  pose proof (Forall_lookup_1 _ _ _ _ Hall Ht) as Hset.
  unfold launch_job in Hent, Hset.
  rewrite (settled_steps_storeUpload _ _ _ _ Hset) in Hent. exact Hent.
Qed.

Lemma all_entry_as_alone sched files w i j f value w' :
  files !! i = Some j →
  await_promise j = inr f →
  (∀ k j', k ≠ i → files !! k = Some j' → pathB j' ≠ pathB j) →
  multipleUploadB sched files w = (Returned value, w') →
  entries (storage w') !! target (fate j) f
  = entries (storeUpload (fate j) f (storage w)).2 !! target (fate j) f.
Proof.
  intros Hi Hp Hothers.
  destruct (all_cases new_URL sched files w) as [[Hall ->]|[_ H]];
    [|by intros Heq; rewrite Heq in H].
  intros [= <- <-]. simpl.
  pose proof (poolB_alone sched files w i j f Hi Hp Hothers) as Halone.
  destruct ((poolB sched files w).1 !! i) as [t|] eqn:Ht; [|done].
  pose proof (Forall_lookup_1 _ _ _ _ Hall Ht) as Hfin.
  by destruct t.
Qed.

(** X12: When no other job of the batch has the same target, the entry a call
    leaves at its target once the batch has returned is the one the same
    call leaves when it runs alone in the directory the batch started from,
    whatever the order in which the events of the batch were served and
    whether the call succeeded, failed, or failed to clean up. *)
Theorem multipleUpload_entry_as_alone sched files w i j f :
  files !! i = Some j →
  (read_file j = inr f →
   (∀ k j', k ≠ i → files !! k = Some j' → pathA j' ≠ pathA j) →
   ∀ value w', multipleUploadA sched files w = (Returned value, w') →
     entries (storage w') !! target (fate j) f
     = entries (storeUpload (fate j) f (storage w)).2 !! target (fate j) f)
  ∧ (await_promise j = inr f →
     (∀ k j', k ≠ i → files !! k = Some j' → pathB j' ≠ pathB j) →
     ∀ value w', multipleUploadB sched files w = (Returned value, w') →
       entries (storage w') !! target (fate j) f
       = entries (storeUpload (fate j) f (storage w)).2 !! target (fate j) f).
Proof.
  intros Hi. split.
  - intros [= <-] Hothers value w' Hret.
    by apply (allSettled_entry_as_alone sched files w i j value w').
  - intros Hp Hothers value w' Hret.
    by apply (all_entry_as_alone sched files w i j f value w').
Qed.

(** X13: A batch of one file, once returned, has left the directory with the
    entries a [singleUpload] of that file leaves. Where [singleUpload]
    resolves with a stored file the batch returns that file alone and logs
    nothing; where [singleUpload] rejects, the batch returns the empty list
    and logs the reason instead of passing it on. *)
Theorem batch_of_one_as_singleUpload sched j w :
  (∀ value w', multipleUploadA sched [j] w = (Returned value, w') →
     entries (storage w')
     = entries (storage (singleUpload new_URL (fate j) (upload j) w).2)
     ∧ match (singleUpload new_URL (fate j) (upload j) w).1 with
       | inr a => value = [a] ∧ console w' = console w
       | inl e => value = [] ∧ console w' = console w ++ [diagnostic e]
       end)
  ∧ (promise (upload j) = inr (file (upload j)) →
     ∀ value w', multipleUploadB sched [j] w = (Returned value, w') →
       entries (storage w')
       = entries (storage (singleUpload new_URL (fate j) (upload j) w).2)
       ∧ match (singleUpload new_URL (fate j) (upload j) w).1 with
         | inr a => value = [a] ∧ console w' = console w
         | inl e => value = [] ∧ console w' = console w ++ [diagnostic e]
         end).
Proof.
  assert (Hsingle : singleUpload new_URL (fate j) (upload j) w
                    = ((storeUpload (fate j) (file (upload j)) (storage w)).1,
                       {| console := console w;
                          storage := (storeUpload (fate j) (file (upload j))
                                        (storage w)).2 |})).
  { unfold singleUpload. by destruct (storeUpload _ _ _). }
  rewrite Hsingle. cbn [fst snd storage].
  assert (Hone : ∀ k j', k ≠ 0 → [j] !! k = Some j' → False).
  { by intros [|k] j' Hk Hj'. }
  split.
  - intros value w' Hret. split.
    + apply map_eq. intros p.
      destruct (decide (p = target (fate j) (file (upload j)))) as [->|Hne].
      * apply (allSettled_entry_as_alone sched [j] w 0 j value w'); [done| |done].
        intros k j' Hk Hj'. destruct (Hone k j' Hk Hj').
      * rewrite storeUpload_frame by done.
        pose proof (allSettled_leaves_other_entries new_URL sched [j] w p) as Hfr.
        rewrite Hret in Hfr. apply Hfr.
        intros j' ->%list_elem_of_singleton. unfold job_path, read_file.
        intros [= Heq]. by apply Hne.
    + destruct (allSettled_cases new_URL sched [j] w) as [[_ Heq]|[_ Heq]];
        rewrite Heq in Hret; [|done]. injection Hret as <- <-.
      unfold results_of, job_result, read_file. simpl.
      destruct ((storeUpload (fate j) (file (upload j)) (storage w)).1); simpl;
        by rewrite ?app_nil_r.
  - intros Hp value w' Hret. split.
    + apply map_eq. intros p.
      destruct (decide (p = target (fate j) (file (upload j)))) as [->|Hne].
      * apply (all_entry_as_alone sched [j] w 0 j (file (upload j)) value w');
          [done|done| |done].
        intros k j' Hk Hj'. destruct (Hone k j' Hk Hj').
      * rewrite storeUpload_frame by done.
        pose proof (all_leaves_other_entries new_URL sched [j] w p) as Hfr.
        rewrite Hret in Hfr. apply Hfr.
        intros j' ->%list_elem_of_singleton. unfold job_path, await_promise.
        rewrite Hp. intros [= Heq]. by apply Hne.
    + destruct (all_cases new_URL sched [j] w) as [[Hall Heq]|[_ Heq]];
        [rewrite Heq in Hret|by rewrite Hret in Heq]. injection Hret as <- <-.
      pose proof (finish_order_all new_URL sched [j] w Hall) as Hord.
      apply Permutation_singleton_r in Hord. unfold in_order. rewrite Hord.
      unfold job_result, await_promise. simpl. rewrite Hp.
      destruct ((storeUpload (fate j) (file (upload j)) (storage w)).1); simpl;
        by rewrite ?app_nil_r.
Qed.

End BatchAlone.

(** ** Listing after a batch *)

Section BatchListing.
Variable new_URL : string → string.

Local Abbreviation step := (step new_URL).
Local Abbreviation stepB := (stepB new_URL).
Local Abbreviation target := (target new_URL).
Local Abbreviation multipleUploadA := (multipleUpload_allSettled new_URL).
Local Abbreviation multipleUploadB := (multipleUpload_all new_URL).
Local Abbreviation poolA := (poolA new_URL).
Local Abbreviation poolB := (poolB new_URL).
Local Abbreviation pathA := (job_path new_URL read_file).
Local Abbreviation pathB := (job_path new_URL await_promise).

Lemma step_unreadable t s : unreadable (step t s).2 = unreadable s.
Proof. step_cases t; simpl; try done. by destruct (unlink_fails φ). Qed.

Lemma stepB_unreadable t r :
  unreadable (disk_state (stepB t r).2) = unreadable (disk_state r).
Proof.
  destruct t as [j|t|res]; simpl; [by destruct (promise (upload j))| |done].
  pose proof (step_unreadable t (disk_state r)) as H.
  destruct (step t (disk_state r)) as [t' s']. simpl in H.
  by destruct (t_phase t') as [| | |[|]].
Qed.

Lemma poolA_unreadable sched files w :
  unreadable (poolA sched files w).2 = unreadable (storage w).
Proof.
  apply (run_invariant step (λ q, unreadable q.2 = unreadable (storage w))); [|done].
  intros i q Hq. destruct (q.1 !! i) as [t|] eqn:Hi.
  - rewrite (tick_inside _ _ _ _ Hi). simpl. by rewrite step_unreadable.
  - by rewrite tick_outside.
Qed.

Lemma poolB_unreadable sched files w :
  unreadable (disk_state (poolB sched files w).2) = unreadable (storage w).
Proof.
  apply (run_invariant stepB
           (λ q, unreadable (disk_state q.2) = unreadable (storage w))); [|done].
  intros i q Hq. destruct (q.1 !! i) as [t|] eqn:Hi.
  - rewrite (tick_inside _ _ _ _ Hi). simpl. by rewrite stepB_unreadable.
  - by rewrite tick_outside.
Qed.

Lemma listed_iff (s : Storage) (c : list string) name :
  unreadable s = None →
  (∃ names, (uploads {| console := c; storage := s |}).1 = inr names
            ∧ (name ∈ names ↔ is_Some (entries s !! name))).
Proof.
  intros Hr. unfold uploads, readdir. simpl. rewrite Hr. simpl.
  eexists. split; [done|]. rewrite list_elem_of_fmap. split.
  - intros ([k v] & -> & Hin). apply elem_of_map_to_list in Hin. by eexists.
  - intros [v Hv]. exists (name, v). split; [done|]. by apply elem_of_map_to_list.
Qed.

(** X14: After a batch has returned, [uploads] lists the entry of every file
    that is in its result, provided no other job of the batch had the same
    target; the name listed is the entry of the filename returned. *)
Theorem batch_result_is_listed sched files w i j a :
  files !! i = Some j →
  unreadable (storage w) = None →
  (job_result new_URL read_file (storage w) j = inr a →
   (∀ k j', k ≠ i → files !! k = Some j' → pathA j' ≠ pathA j) →
   ∀ value w', multipleUploadA sched files w = (Returned value, w') →
     a ∈ value
     ∧ ∃ names, (uploads w').1 = inr names ∧ new_URL (FileArgs.filename a) ∈ names)
  ∧ (job_result new_URL await_promise (storage w) j = inr a →
     (∀ k j', k ≠ i → files !! k = Some j' → pathB j' ≠ pathB j) →
     ∀ value w', multipleUploadB sched files w = (Returned value, w') →
       a ∈ value
       ∧ ∃ names, (uploads w').1 = inr names ∧ new_URL (FileArgs.filename a) ∈ names).
Proof.
  intros Hi Hread. split.
  - intros Hres Hothers value w'.
    destruct (allSettled_cases new_URL sched files w) as [[Hall ->]|[_ ->]]; [|done].
    intros [= <- <-]. split.
    + apply list_elem_of_omap. exists (inr a). split; [|done].
      unfold results_of. apply list_elem_of_fmap. exists j. split; [done|].
      by eapply list_elem_of_lookup_2.
    + pose proof (poolA_stored new_URL sched files w i j a Hall Hi Hres Hothers) as Hst.
      destruct (listed_iff (poolA sched files w).2
                  (console w ++ (diagnostic <$>
                     omap rejected (results_of new_URL read_file files w)))
                  (new_URL (FileArgs.filename a))) as (names & Hn & Hiff).
      { by rewrite poolA_unreadable. }
      exists names. split; [done|]. apply Hiff.
      unfold job_result, read_file in Hres.
      destruct (storeUpload new_URL (fate j) (file (upload j)) (storage w))
        as [r s1] eqn:Hs. simpl in Hres. subst r.
      rewrite (storeUpload_filename_and_target new_URL _ _ _ _ _ Hs). by eexists.
  - intros Hres Hothers value w'.
    destruct (all_cases new_URL sched files w) as [[Hall ->]|[_ H]];
      [|by intros Heq; rewrite Heq in H].
    intros [= <- <-].
    unfold job_result, await_promise in Hres.
    destruct (promise (upload j)) as [e|f] eqn:Hp; [done|]. split.
    + pose proof (in_finish_order new_URL fulfilled sched files w Hall) as Hperm.
      unfold in_order. rewrite Hperm.
      apply list_elem_of_omap. exists (inr a). split; [|done].
      unfold results_of. apply list_elem_of_fmap. exists j. split.
      * unfold job_result, await_promise. by rewrite Hp.
      * by eapply list_elem_of_lookup_2.
    + assert (Hst : entries (disk_state (poolB sched files w).2) !! target (fate j) f
                    = Some (whole f)).
      { apply (poolB_stored new_URL sched files w i j f a Hall Hi); [done| |done].
        unfold job_result, await_promise. by rewrite Hp. }
      destruct (listed_iff (disk_state (poolB sched files w).2)
                  (console w ++ (diagnostic <$>
                     omap (λ i, files !! i ≫= λ j,
                             rejected (job_result new_URL await_promise (storage w) j))
                       (finish_order new_URL sched files w)))
                  (new_URL (FileArgs.filename a))) as (names & Hn & Hiff).
      { by rewrite poolB_unreadable. }
      exists names. split; [done|]. apply Hiff.
      destruct (storeUpload new_URL (fate j) f (storage w)) as [r s1] eqn:Hs.
      simpl in Hres. subst r.
      rewrite (storeUpload_filename_and_target new_URL _ _ _ _ _ Hs). by eexists.
Qed.

End BatchListing.

(** ** The further properties at work on sample data *)

Lemma storeUpload_name_collision_witness :
  entries (storage two_files) !! target uploads_dir (lucky "a1") react_again
    = Some "PNGDATA"
  ∧ storeUpload uploads_dir (lucky "a1") react_again (storage two_files)
    = (inr (stored_args (lucky "a1") react_again),
       (storeUpload uploads_dir (lucky "a1") react_again (storage two_files)).2)
  ∧ entries (storeUpload uploads_dir (lucky "a1") react_again (storage two_files)).2
      !! target uploads_dir (lucky "a1") react_again = Some (whole react_again)
  ∧ size (entries (storeUpload uploads_dir (lucky "a1") react_again
                     (storage two_files)).2)
    = size (entries (storage two_files)).
Proof.
  assert (Hold : entries (storage two_files)
                   !! target uploads_dir (lucky "a1") react_again = Some "PNGDATA")
    by (vm_compute; reflexivity).
  assert (Hrun : storeUpload uploads_dir (lucky "a1") react_again (storage two_files)
                 = (inr (stored_args (lucky "a1") react_again),
                    (storeUpload uploads_dir (lucky "a1") react_again
                       (storage two_files)).2))
    by (vm_compute; reflexivity).
  split; [exact Hold|]. split; [exact Hrun|].
  exact (proj1 (storeUpload_name_collision uploads_dir _ _ _ _ Hold) _ _ Hrun).
Defined.

Lemma storeUpload_leftover_is_prefix_witness :
  storeUpload uploads_dir (disk_full_sticky "d4") react_png empty_dir
    = (inl "Error: ENOSPC",
       (storeUpload uploads_dir (disk_full_sticky "d4") react_png empty_dir).2)
  ∧ unlink_fails (disk_full_sticky "d4") = true
  ∧ (∃ left rest,
       entries (storeUpload uploads_dir (disk_full_sticky "d4") react_png empty_dir).2
         !! target uploads_dir (disk_full_sticky "d4") react_png = Some left
       ∧ left +:+ rest = whole react_png)
  ∧ entries (storeUpload uploads_dir (disk_full_sticky "d4") react_png empty_dir).2
      !! target uploads_dir (disk_full_sticky "d4") react_png = Some "PNGDA".
Proof.
  assert (Hrun : storeUpload uploads_dir (disk_full_sticky "d4") react_png empty_dir
                 = (inl "Error: ENOSPC",
                    (storeUpload uploads_dir (disk_full_sticky "d4") react_png
                       empty_dir).2))
    by (vm_compute; reflexivity).
  split; [exact Hrun|]. split; [reflexivity|].
  split; [|vm_compute; reflexivity].
  exact (storeUpload_leftover_is_prefix uploads_dir _ _ _ _ _ Hrun eq_refl).
Defined.

Lemma stored_file_is_listed_witness :
  singleUpload uploads_dir (lucky "a1") (resolved react_png) quiet
    = (inr (stored_args (lucky "a1") react_png),
       (singleUpload uploads_dir (lucky "a1") (resolved react_png) quiet).2)
  ∧ ∃ before after,
      (uploads quiet).1 = inr before
      ∧ (uploads (singleUpload uploads_dir (lucky "a1") (resolved react_png) quiet).2).1
        = inr after
      ∧ uploads_dir (FileArgs.filename (stored_args (lucky "a1") react_png)) ∈ after
      ∧ ∀ name, name ∈ after
                ↔ name ∈ before
                  ∨ name = uploads_dir (FileArgs.filename (stored_args (lucky "a1") react_png)).
Proof.
  assert (Hrun : singleUpload uploads_dir (lucky "a1") (resolved react_png) quiet
                 = (inr (stored_args (lucky "a1") react_png),
                    (singleUpload uploads_dir (lucky "a1") (resolved react_png) quiet).2))
    by (vm_compute; reflexivity).
  split; [exact Hrun|].
  exact (stored_file_is_listed uploads_dir _ _ _ _ _ Hrun eq_refl).
Defined.

Lemma failed_upload_is_not_listed_witness :
  singleUpload uploads_dir (lucky "b2") (resolved broken_png) two_files
    = (inl "Error: Request disconnected",
       (singleUpload uploads_dir (lucky "b2") (resolved broken_png) two_files).2)
  ∧ (uploads (singleUpload uploads_dir (lucky "b2") (resolved broken_png) two_files).2).1
    = (uploads two_files).1
  ∧ console (singleUpload uploads_dir (lucky "b2") (resolved broken_png) two_files).2
    = console two_files.
Proof.
  assert (Hrun : singleUpload uploads_dir (lucky "b2") (resolved broken_png) two_files
                 = (inl "Error: Request disconnected",
                    (singleUpload uploads_dir (lucky "b2") (resolved broken_png)
                       two_files).2))
    by (vm_compute; reflexivity).
  split; [exact Hrun|].
  apply (failed_upload_is_not_listed uploads_dir _ _ _ _ _ Hrun eq_refl).
  vm_compute. reflexivity.
Defined.

Lemma distinct_ids_distinct_filenames_witness :
  shortId_generate (lucky "a1") ≠ shortId_generate (lucky "z9")
  ∧ FileArgs.filename (stored_args (lucky "a1") react_png)
    ≠ FileArgs.filename (stored_args (lucky "z9") react_again).
Proof.
  assert (Hid : shortId_generate (lucky "a1") ≠ shortId_generate (lucky "z9"))
    by discriminate.
  split; [exact Hid|].
  apply (distinct_ids_distinct_filenames uploads_dir (lucky "a1") (lucky "z9")
           react_png react_again empty_dir empty_dir _ _
           (storeUpload uploads_dir (lucky "a1") react_png empty_dir).2
           (storeUpload uploads_dir (lucky "z9") react_again empty_dir).2);
    [vm_compute; reflexivity|vm_compute; reflexivity|reflexivity|exact Hid].
Defined.

Lemma multipleUpload_log_order_witness :
  multipleUpload_allSettled uploads_dir in_turn [job_broken; job_react] quiet
    = (Returned [stored_args (lucky "a1") react_png],
       (multipleUpload_allSettled uploads_dir in_turn [job_broken; job_react] quiet).2)
  ∧ console (multipleUpload_allSettled uploads_dir in_turn
               [job_broken; job_react] quiet).2
    = console quiet
      ++ (diagnostic <$> omap rejected
            (results_of uploads_dir read_file [job_broken; job_react] quiet)).
Proof.
  assert (Hrun : multipleUpload_allSettled uploads_dir in_turn [job_broken; job_react] quiet
                 = (Returned [stored_args (lucky "a1") react_png],
                    (multipleUpload_allSettled uploads_dir in_turn
                       [job_broken; job_react] quiet).2))
    by (vm_compute; reflexivity).
  split; [exact Hrun|].
  exact (proj1 (multipleUpload_log_order uploads_dir in_turn [job_broken; job_react] quiet)
           _ _ Hrun).
Defined.

Lemma multipleUpload_accounts_for_every_file_witness :
  multipleUpload_all uploads_dir in_turn [job_react; job_broken] quiet
    = (Returned [stored_args (lucky "a1") react_png],
       (multipleUpload_all uploads_dir in_turn [job_react; job_broken] quiet).2)
  ∧ length [stored_args (lucky "a1") react_png]
    + length (console (multipleUpload_all uploads_dir in_turn
                         [job_react; job_broken] quiet).2)
    = length [job_react; job_broken] + length (console quiet).
Proof.
  assert (Hrun : multipleUpload_all uploads_dir in_turn [job_react; job_broken] quiet
                 = (Returned [stored_args (lucky "a1") react_png],
                    (multipleUpload_all uploads_dir in_turn
                       [job_react; job_broken] quiet).2))
    by (vm_compute; reflexivity).
  split; [exact Hrun|].
  exact (proj2 (multipleUpload_accounts_for_every_file uploads_dir in_turn
                  [job_react; job_broken] quiet) _ _ Hrun).
Defined.

Lemma multipleUpload_stable_after_return_witness :
  multipleUpload_all uploads_dir in_turn [job_react; job_broken] quiet
    = (Returned [stored_args (lucky "a1") react_png],
       (multipleUpload_all uploads_dir in_turn [job_react; job_broken] quiet).2)
  ∧ multipleUpload_all uploads_dir (in_turn ++ last_first) [job_react; job_broken] quiet
    = (Returned [stored_args (lucky "a1") react_png],
       (multipleUpload_all uploads_dir in_turn [job_react; job_broken] quiet).2).
Proof.
  assert (Hrun : multipleUpload_all uploads_dir in_turn [job_react; job_broken] quiet
                 = (Returned [stored_args (lucky "a1") react_png],
                    (multipleUpload_all uploads_dir in_turn
                       [job_react; job_broken] quiet).2))
    by (vm_compute; reflexivity).
  split; [exact Hrun|].
  exact (proj2 (multipleUpload_stable_after_return uploads_dir in_turn last_first
                  [job_react; job_broken] quiet) _ _ Hrun).
Defined.

Lemma multipleUpload_entry_as_alone_witness :
  [job_react; job_broken] !! 1 = Some job_broken
  ∧ multipleUpload_all uploads_dir in_turn [job_react; job_broken] quiet
    = (Returned [stored_args (lucky "a1") react_png],
       (multipleUpload_all uploads_dir in_turn [job_react; job_broken] quiet).2)
  ∧ entries (storage (multipleUpload_all uploads_dir in_turn
                        [job_react; job_broken] quiet).2)
      !! target uploads_dir (lucky "b2") broken_png
    = entries (storeUpload uploads_dir (lucky "b2") broken_png (storage quiet)).2
        !! target uploads_dir (lucky "b2") broken_png.
Proof.
  assert (Hrun : multipleUpload_all uploads_dir in_turn [job_react; job_broken] quiet
                 = (Returned [stored_args (lucky "a1") react_png],
                    (multipleUpload_all uploads_dir in_turn
                       [job_react; job_broken] quiet).2))
    by (vm_compute; reflexivity).
  split; [reflexivity|]. split; [exact Hrun|].
  apply (proj2 (multipleUpload_entry_as_alone uploads_dir in_turn
                  [job_react; job_broken] quiet 1 job_broken broken_png eq_refl)
           eq_refl) with (value := [stored_args (lucky "a1") react_png]);
    [|exact Hrun].
  intros [|[|k]] j' Hk Hj'; [|done|done].
  injection Hj' as <-. vm_compute. discriminate.
Defined.

Lemma batch_of_one_as_singleUpload_witness :
  multipleUpload_allSettled uploads_dir in_turn [job_broken] quiet
    = (Returned [],
       (multipleUpload_allSettled uploads_dir in_turn [job_broken] quiet).2)
  ∧ (singleUpload uploads_dir (lucky "b2") (resolved broken_png) quiet).1
    = inl "Error: Request disconnected"
  ∧ entries (storage (multipleUpload_allSettled uploads_dir in_turn [job_broken] quiet).2)
    = entries (storage (singleUpload uploads_dir (fate job_broken) (upload job_broken)
                          quiet).2).
Proof.
  assert (Hrun : multipleUpload_allSettled uploads_dir in_turn [job_broken] quiet
                 = (Returned [],
                    (multipleUpload_allSettled uploads_dir in_turn [job_broken] quiet).2))
    by (vm_compute; reflexivity).
  split; [exact Hrun|]. split; [vm_compute; reflexivity|].
  exact (proj1 (proj1 (batch_of_one_as_singleUpload uploads_dir in_turn job_broken quiet)
                  _ _ Hrun)).
Defined.

Lemma batch_result_is_listed_witness :
  [job_react; job_broken] !! 0 = Some job_react
  ∧ unreadable (storage quiet) = None
  ∧ multipleUpload_all uploads_dir in_turn [job_react; job_broken] quiet
    = (Returned [stored_args (lucky "a1") react_png],
       (multipleUpload_all uploads_dir in_turn [job_react; job_broken] quiet).2)
  ∧ stored_args (lucky "a1") react_png ∈ [stored_args (lucky "a1") react_png]
  ∧ ∃ names,
      (uploads (multipleUpload_all uploads_dir in_turn
                  [job_react; job_broken] quiet).2).1 = inr names
      ∧ uploads_dir (FileArgs.filename (stored_args (lucky "a1") react_png)) ∈ names.
Proof.
  assert (Hrun : multipleUpload_all uploads_dir in_turn [job_react; job_broken] quiet
                 = (Returned [stored_args (lucky "a1") react_png],
                    (multipleUpload_all uploads_dir in_turn
                       [job_react; job_broken] quiet).2))
    by (vm_compute; reflexivity).
  split; [reflexivity|]. split; [reflexivity|]. split; [exact Hrun|].
  apply (proj2 (batch_result_is_listed uploads_dir in_turn [job_react; job_broken] quiet
                  0 job_react (stored_args (lucky "a1") react_png) eq_refl eq_refl));
    [vm_compute; reflexivity| |exact Hrun].
  intros [|[|k]] j' Hk Hj'; [done| |done].
  injection Hj' as <-. vm_compute. discriminate.
Defined.
